(** * Quota enforcement of can-render-studio: the [rate-limit] edge function

    A shallow embedding of the Deno edge function that decides, server side,
    whether a caller may run another generation today, and that records each
    accepted generation (src/unnamed/part_000, lines 1-289), together with
    the three tables it reads and writes (same file, lines 290-330).

    - JavaScript strings are sequences of UTF-16 code units ([jsstring]);
      [length], [substring], [trim] and the regular expression of
      [sanitizeFingerprint] all work on code units.
    - Counters are JavaScript numbers holding small integers: [Z].
    - Every [await supabaseClient.from(...)] is one request to the database;
      the handler is a program over these requests ([Prog]), which can be
      run alone ([run]) or interleaved with other handlers ([run_schedule]).
    - [crypto.subtle.digest("SHA-256", ...)] is SHA-256 as in FIPS 180-4,
      [TextEncoder] is UTF-8, [encodeHex] is lower-case hexadecimal.
    - The database answers every request it is sent; a JSON body has the
      fields of [RateLimitRequest] with their declared types, [fingerprint],
      [success] and [errorMessage] possibly absent; the clock and the auth
      provider are given with each request ([Env]).

    Part I is the program, Part II its properties. *)

From Stdlib Require Import List NArith ZArith Bool Lia String Ascii.
Import ListNotations.

Set Implicit Arguments.

(* ################################################################# *)
(** * Part I: the program *)

(* ================================================================= *)
(** ** JavaScript strings *)

Module Js.

(** One UTF-16 code unit. *)
Definition char := N.

Definition jsstring := list char.

(** A literal of the source text; every character of the literals used
    here is ASCII, so one byte is one code unit. *)
Definition lit (s : string) : jsstring :=
  map N_of_ascii (list_ascii_of_string s).

Fixpoint eqb (a b : jsstring) : bool :=
  match a, b with
  | [], [] => true
  | x :: a', y :: b' => N.eqb x y && eqb a' b'
  | _, _ => false
  end.

(** [s.length] *)
Definition length (s : jsstring) : Z := Z.of_nat (List.length s).

(** [s.startsWith(p)] *)
Fixpoint startsWith (p s : jsstring) : bool :=
  match p, s with
  | [], _ => true
  | x :: p', y :: s' => N.eqb x y && startsWith p' s'
  | _ :: _, [] => false
  end.

(** [s.replace(p, r)] with a string pattern: the first occurrence only. *)
Fixpoint replace (p r s : jsstring) : jsstring :=
  if startsWith p s then r ++ skipn (List.length p) s
  else match s with
       | [] => []
       | c :: s' => c :: replace p r s'
       end.

(** [s.split(c)[0]]: what comes before the first separator. *)
Fixpoint split_first (c : char) (s : jsstring) : jsstring :=
  match s with
  | [] => []
  | x :: s' => if N.eqb x c then [] else x :: split_first c s'
  end.

(** White space and line terminators of ECMAScript, what [trim] strips. *)
Definition isWhiteSpace (c : char) : bool :=
  ((9 <=? c) && (c <=? 13) || (c =? 32) || (c =? 160) || (c =? 5760)
   || (8192 <=? c) && (c <=? 8202) || (c =? 8232) || (c =? 8233)
   || (c =? 8239) || (c =? 8287) || (c =? 12288) || (c =? 65279))%N.

Fixpoint trimStart (s : jsstring) : jsstring :=
  match s with
  | [] => []
  | c :: s' => if isWhiteSpace c then trimStart s' else s
  end.

Definition trim (s : jsstring) : jsstring :=
  rev (trimStart (rev (trimStart s))).

(** Truthiness of a possibly absent string: [null], [undefined] and the
    empty string are falsy. *)
Definition truthy (o : option jsstring) : bool :=
  match o with
  | Some (_ :: _) => true
  | _ => false
  end.

(** [a || b] on possibly absent strings. *)
Definition or_else (a b : option jsstring) : option jsstring :=
  if truthy a then a else b.

End Js.

Abbreviation jsstring := Js.jsstring.

(* ================================================================= *)
(** ** SHA-256, UTF-8 and hexadecimal

    The platform functions the identity derivation calls. *)

Module Sha256.

Local Open Scope N_scope.

Definition byte := N.
Definition word := N.

Definition mask32 : N := 0xffffffff.

Definition add32 (a b : word) : word := N.land (a + b) mask32.

Definition rotr (n : N) (x : word) : word :=
  N.land (N.lor (N.shiftr x n) (N.shiftl x (32 - n))) mask32.

Definition shr (n : N) (x : word) : word := N.shiftr x n.

Definition not32 (x : word) : word := N.lxor x mask32.

Definition Ch (x y z : word) : word :=
  N.lxor (N.land x y) (N.land (not32 x) z).

Definition Maj (x y z : word) : word :=
  N.lxor (N.lxor (N.land x y) (N.land x z)) (N.land y z).

Definition Sigma0 (x : word) : word :=
  N.lxor (N.lxor (rotr 2 x) (rotr 13 x)) (rotr 22 x).

Definition Sigma1 (x : word) : word :=
  N.lxor (N.lxor (rotr 6 x) (rotr 11 x)) (rotr 25 x).

Definition sigma0 (x : word) : word :=
  N.lxor (N.lxor (rotr 7 x) (rotr 18 x)) (shr 3 x).

Definition sigma1 (x : word) : word :=
  N.lxor (N.lxor (rotr 17 x) (rotr 19 x)) (shr 10 x).

(** The constants are fractional parts of roots of the first primes
    (FIPS 180-4, 4.2.2 and 5.3.3). *)
Definition is_prime (n : N) : bool :=
  (2 <=? n)
  && forallb (fun d => negb (n mod d =? 0))
             (map N.of_nat (seq 2 (N.to_nat n - 2))).

Definition primes : list N :=
  firstn 64 (filter is_prime (map N.of_nat (seq 2 310))).

(** The integer cube root, one bit at a time from bit [bits - 1] down. *)
Fixpoint root3 (bits : nat) (n r : N) : N :=
  match bits with
  | O => r
  | S b =>
      let c := r + N.shiftl 1 (N.of_nat b) in
      root3 b n (if c * c * c <=? n then c else r)
  end.

(** The first 32 bits of the fractional part of the cube root of [p]. *)
Definition frac_root3 (p : N) : word :=
  N.land (root3 44 (N.shiftl p 96) 0) mask32.

(** The first 32 bits of the fractional part of the square root of [p]. *)
Definition frac_root2 (p : N) : word :=
  N.land (N.sqrt (N.shiftl p 64)) mask32.

Definition K : list word := Eval vm_compute in map frac_root3 primes.

(** Big-endian bytes of a number, [n] of them. *)
Fixpoint be_bytes (n : nat) (x : N) : list byte :=
  match n with
  | O => []
  | S n' => N.land (N.shiftr x (8 * N.of_nat n')) 0xff :: be_bytes n' x
  end.

(** The message followed by the bit 1, zero bits up to 56 modulo 64 bytes,
    and the bit length of the message on 64 bits. *)
Definition pad (msg : list byte) : list byte :=
  let len := N.of_nat (List.length msg) in
  let zeros := (64 - ((len + 9) mod 64)) mod 64 in
  msg ++ [0x80] ++ repeat 0 (N.to_nat zeros) ++ be_bytes 8 (8 * len).

(** Big-endian 32-bit words of a byte sequence. *)
Fixpoint words (fuel : nat) (bs : list byte) : list word :=
  match fuel, bs with
  | S fuel', b0 :: b1 :: b2 :: b3 :: bs' =>
      (N.shiftl b0 24 + N.shiftl b1 16 + N.shiftl b2 8 + b3)
        :: words fuel' bs'
  | _, _ => []
  end.

(** Message schedule, kept newest first: the head is W(t-1). *)
Fixpoint schedule (n : nat) (w : list word) : list word :=
  match n with
  | O => w
  | S n' =>
      let wt := add32 (add32 (sigma1 (nth 1 w 0)) (nth 6 w 0))
                      (add32 (sigma0 (nth 14 w 0)) (nth 15 w 0)) in
      schedule n' (wt :: w)
  end.

Record regs := Regs { ra : word; rb : word; rc : word; rd : word;
                      re : word; rf : word; rg : word; rh : word }.

Definition round (r : regs) (kw : word * word) : regs :=
  let '(k, w) := kw in
  let t1 := add32 (add32 (add32 (rh r) (Sigma1 (re r)))
                         (add32 (Ch (re r) (rf r) (rg r)) k)) w in
  let t2 := add32 (Sigma0 (ra r)) (Maj (ra r) (rb r) (rc r)) in
  Regs (add32 t1 t2) (ra r) (rb r) (rc r) (add32 (rd r) t1) (re r) (rf r) (rg r).

Definition compress (h : regs) (block : list word) : regs :=
  let w := rev (schedule 48 (rev block)) in
  let r := fold_left round (combine K w) h in
  Regs (add32 (ra h) (ra r)) (add32 (rb h) (rb r))
       (add32 (rc h) (rc r)) (add32 (rd h) (rd r))
       (add32 (re h) (re r)) (add32 (rf h) (rf r))
       (add32 (rg h) (rg r)) (add32 (rh h) (rh r)).

Fixpoint blocks (fuel : nat) (h : regs) (ws : list word) : regs :=
  match fuel, ws with
  | S fuel', _ :: _ => blocks fuel' (compress h (firstn 16 ws)) (skipn 16 ws)
  | _, _ => h
  end.

Definition initial : regs :=
  Eval vm_compute in
    match map frac_root2 primes with
    | a :: b :: c :: d :: e :: f :: g :: h :: _ => Regs a b c d e f g h
    | _ => Regs 0 0 0 0 0 0 0 0
    end.

(** The 32 bytes of the digest. *)
Definition digest (msg : list byte) : list byte :=
  let p := pad msg in
  let ws := words (List.length p) p in
  let r := blocks (List.length ws) initial ws in
  flat_map (be_bytes 4)
    [ra r; rb r; rc r; rd r; re r; rf r; rg r; rh r].

(** [new TextEncoder().encode(s)]: surrogate pairs are joined, a lone
    surrogate becomes U+FFFD, code points are written in UTF-8. *)
Definition utf8_of_code_point (c : N) : list byte :=
  if c <? 0x80 then [c]
  else if c <? 0x800 then
    [N.lor 0xc0 (N.shiftr c 6); N.lor 0x80 (N.land c 0x3f)]
  else if c <? 0x10000 then
    [N.lor 0xe0 (N.shiftr c 12);
     N.lor 0x80 (N.land (N.shiftr c 6) 0x3f);
     N.lor 0x80 (N.land c 0x3f)]
  else
    [N.lor 0xf0 (N.shiftr c 18);
     N.lor 0x80 (N.land (N.shiftr c 12) 0x3f);
     N.lor 0x80 (N.land (N.shiftr c 6) 0x3f);
     N.lor 0x80 (N.land c 0x3f)].

Definition isHigh (c : N) : bool := (0xd800 <=? c) && (c <=? 0xdbff).
Definition isLow (c : N) : bool := (0xdc00 <=? c) && (c <=? 0xdfff).

Fixpoint code_points (s : jsstring) : list N :=
  match s with
  | [] => []
  | c :: s' =>
      if isHigh c then
        match s' with
        | d :: s'' =>
            if isLow d
            then (0x10000 + N.shiftl (c - 0xd800) 10 + (d - 0xdc00))
                   :: code_points s''
            else 0xfffd :: code_points s'
        | [] => [0xfffd]
        end
      else if isLow c then 0xfffd :: code_points s'
      else c :: code_points s'
  end.

Definition encode (s : jsstring) : list byte :=
  flat_map utf8_of_code_point (code_points s).

Definition hexDigit (n : N) : Js.char :=
  if n <? 10 then 48 + n else 87 + n.

(** [encodeHex(bytes)] *)
Definition encodeHex (bs : list byte) : jsstring :=
  flat_map (fun b => [hexDigit (N.shiftr b 4); hexDigit (N.land b 0xf)]) bs.

(** [encodeHex(await crypto.subtle.digest("SHA-256", encode(s)))] *)
Definition hex (s : jsstring) : jsstring := encodeHex (digest (encode s)).

End Sha256.

(* ================================================================= *)
(** ** Identity derivation (lines 9-57) *)

Local Open Scope Z_scope.

Definition ANONYMOUS_DAILY_LIMIT : Z := 5.
Definition AUTHENTICATED_DAILY_LIMIT : Z := 10.
Definition MAX_FINGERPRINT_LENGTH : Z := 500.

(** A value or a thrown [Error]. *)
Inductive result (A : Type) : Type :=
| Ok (a : A)
| Thrown (msg : string).

Arguments Ok {A} a.
Arguments Thrown {A} msg.

(** The class [[a-zA-Z0-9]] of the regular expression. *)
Definition isAlnum (c : Js.char) : bool :=
  ((48 <=? c) && (c <=? 57) || (65 <=? c) && (c <=? 90)
   || (97 <=? c) && (c <=? 122))%N.

(** [s.substring(0, n)] for [0 <= n]. *)
Definition substring0 (n : Z) (s : jsstring) : jsstring :=
  firstn (Z.to_nat n) s.

(** [sanitizeFingerprint]; [None] is a fingerprint that is [undefined] or
    [null], which [!fingerprint] rejects like the empty string. *)
Definition sanitizeFingerprint (fingerprint : option jsstring)
  : result jsstring :=
  match fingerprint with
  | Some f =>
      if negb (Js.truthy fingerprint) || (Js.length f >? MAX_FINGERPRINT_LENGTH)
      then Thrown "Invalid fingerprint"
      else Ok (substring0 MAX_FINGERPRINT_LENGTH (filter isAlnum f))
  | None => Thrown "Invalid fingerprint"
  end.

(** The template string [`${ip}:${sanitizedFingerprint}`]. *)
Definition combined (ip sanitizedFingerprint : jsstring) : jsstring :=
  ip ++ Js.lit ":" ++ sanitizedFingerprint.

Definition createSecureAnonymousId (ip : jsstring)
  (fingerprint : option jsstring) : result jsstring :=
  match sanitizeFingerprint fingerprint with
  | Ok sanitizedFingerprint => Ok (Sha256.hex (combined ip sanitizedFingerprint))
  | Thrown msg => Thrown msg
  end.

(** The request: its method, the headers the handler reads, and the JSON
    body ([None] when [req.json()] rejects). *)
Record RateLimitRequest := {
  action : jsstring;
  fingerprint : option jsstring;
  success : option bool;
  errorMessage : option jsstring
}.

Record Request := {
  method : jsstring;
  x_forwarded_for : option jsstring;
  x_real_ip : option jsstring;
  cf_connecting_ip : option jsstring;
  authorization : option jsstring;
  json : option RateLimitRequest
}.

(** [a || d] where [d] is a non-empty literal. *)
Definition or_default (a : option jsstring) (d : jsstring) : jsstring :=
  match a with
  | Some (c :: s) => c :: s
  | _ => d
  end.

Definition validateRequest (req : Request) : jsstring * bool :=
  let forwarded :=
    option_map (fun h => Js.trim (Js.split_first 44%N h)) (x_forwarded_for req) in
  let clientIP :=
    or_default
      (Js.or_else (Js.or_else forwarded (x_real_ip req)) (cf_connecting_ip req))
      (Js.lit "unknown") in
  let isValid :=
    negb (Js.eqb clientIP (Js.lit "unknown")) && (Js.length clientIP >? 0) in
  (clientIP, isValid).

(* ================================================================= *)
(** ** The quota store (lines 290-330)

    The columns the handler reads or writes. The surrogate key [id] and
    the timestamps [created_at] and [updated_at] take no part in any
    decision and are left out. *)

Record UserUsageRow := {
  uu_user_id : jsstring;
  uu_date : jsstring;
  uu_generations_used : Z
}.

Record AnonymousUsageRow := {
  au_anonymous_id : jsstring;
  au_ip_address : jsstring;
  au_fingerprint : jsstring;
  au_date : jsstring;
  au_generations_used : Z
}.

Inductive LimitType := anonymous | authenticated.

Record GenerationLog := {
  gl_user_id : option jsstring;
  gl_anonymous_id : option jsstring;
  gl_ip_address : jsstring;
  gl_fingerprint : jsstring;
  gl_success : bool;
  gl_error_message : option jsstring;
  gl_limit_type : LimitType;
  gl_generations_before : Z;
  gl_generations_after : Z
}.

Record Store := {
  user_usage : list UserUsageRow;
  anonymous_usage : list AnonymousUsageRow;
  generation_logs : list GenerationLog
}.

Definition empty_store : Store :=
  {| user_usage := []; anonymous_usage := []; generation_logs := [] |}.

(** The requests the handler sends to the database, one per [await]. *)
Inductive Query :=
| SelectUserUsage (user_id date : jsstring)
| SelectAnonymousUsage (anonymous_id date : jsstring)
| SelectIpUsage (ip_address date : jsstring) (neq_anonymous_id : option jsstring)
| UpsertUserUsage (row : UserUsageRow)
| UpsertAnonymousUsage (row : AnonymousUsageRow)
| InsertGenerationLog (row : GenerationLog).

(** What [data] holds: [generations_used] of the single row or [null], the
    [generations_used] of all selected rows, or nothing for a write. *)
Definition answer (q : Query) : Type :=
  match q with
  | SelectUserUsage _ _ => option Z
  | SelectAnonymousUsage _ _ => option Z
  | SelectIpUsage _ _ _ => list Z
  | UpsertUserUsage _ => unit
  | UpsertAnonymousUsage _ => unit
  | InsertGenerationLog _ => unit
  end.

Definition is_write (q : Query) : bool :=
  match q with
  | UpsertUserUsage _ | UpsertAnonymousUsage _ | InsertGenerationLog _ => true
  | _ => false
  end.

Definition is_upsert (q : Query) : bool :=
  match q with
  | UpsertUserUsage _ | UpsertAnonymousUsage _ => true
  | _ => false
  end.

(** [.single()]: the row when exactly one was selected, [null] otherwise. *)
Definition single {A : Type} (rows : list A) : option A :=
  match rows with
  | [r] => Some r
  | _ => None
  end.

Definition user_key (user_id date : jsstring) (r : UserUsageRow) : bool :=
  Js.eqb (uu_user_id r) user_id && Js.eqb (uu_date r) date.

Definition anonymous_key (anonymous_id date : jsstring)
  (r : AnonymousUsageRow) : bool :=
  Js.eqb (au_anonymous_id r) anonymous_id && Js.eqb (au_date r) date.

Definition ip_key (ip_address date : jsstring) (neq : option jsstring)
  (r : AnonymousUsageRow) : bool :=
  Js.eqb (au_ip_address r) ip_address && Js.eqb (au_date r) date
  && match neq with
     | Some anonymous_id => negb (Js.eqb (au_anonymous_id r) anonymous_id)
     | None => true
     end.

(** [upsert(row, { onConflict })]: the row in conflict takes the new
    values, and without a conflict the row is inserted. *)
Definition upsert {A : Type} (conflict : A -> bool) (row : A)
  (rows : list A) : list A :=
  if existsb conflict rows
  then map (fun r => if conflict r then row else r) rows
  else rows ++ [row].

Definition perform (q : Query) (s : Store) : answer q * Store :=
  match q return answer q * Store with
  | SelectUserUsage user_id date =>
      (option_map uu_generations_used
         (single (filter (user_key user_id date) (user_usage s))), s)
  | SelectAnonymousUsage anonymous_id date =>
      (option_map au_generations_used
         (single (filter (anonymous_key anonymous_id date) (anonymous_usage s))), s)
  | SelectIpUsage ip_address date neq =>
      (map au_generations_used
         (filter (ip_key ip_address date neq) (anonymous_usage s)), s)
  | UpsertUserUsage row =>
      (tt, {| user_usage :=
                upsert (user_key (uu_user_id row) (uu_date row)) row (user_usage s);
              anonymous_usage := anonymous_usage s;
              generation_logs := generation_logs s |})
  | UpsertAnonymousUsage row =>
      (tt, {| user_usage := user_usage s;
              anonymous_usage :=
                upsert (anonymous_key (au_anonymous_id row) (au_date row)) row
                       (anonymous_usage s);
              generation_logs := generation_logs s |})
  | InsertGenerationLog row =>
      (tt, {| user_usage := user_usage s;
              anonymous_usage := anonymous_usage s;
              generation_logs := generation_logs s ++ [row] |})
  end.

(* ================================================================= *)
(** ** Programs over the store *)

Inductive Prog (A : Type) : Type :=
| Ret (a : A)
| Throw (msg : string)
| Vis (q : Query) (k : answer q -> Prog A).

Arguments Ret {A} a.
Arguments Throw {A} msg.
Arguments Vis {A} q k.

Fixpoint bind {A B : Type} (p : Prog A) (f : A -> Prog B) : Prog B :=
  match p with
  | Ret a => f a
  | Throw msg => Throw msg
  | Vis q k => Vis q (fun x => bind (k x) f)
  end.

Definition query (q : Query) : Prog (answer q) := Vis q Ret.

Definition lift {A : Type} (r : result A) : Prog A :=
  match r with
  | Ok a => Ret a
  | Thrown msg => Throw msg
  end.

Notation "x <- p ;; q" := (bind p (fun x => q))
  (at level 61, p at next level, right associativity).
Notation "p ;; q" := (bind p (fun _ => q))
  (at level 61, right associativity).

(** [try { p } catch (error) { return h }] *)
Fixpoint try_catch {A : Type} (p : Prog A) (h : A) : Prog A :=
  match p with
  | Ret a => Ret a
  | Throw _ => Ret h
  | Vis q k => Vis q (fun x => try_catch (k x) h)
  end.

(** One handler running alone: its outcome and the store it leaves. *)
Fixpoint run {A : Type} (p : Prog A) (s : Store) : result A * Store :=
  match p with
  | Ret a => (Ok a, s)
  | Throw msg => (Thrown msg, s)
  | Vis q k => let (x, s') := perform q s in run (k x) s'
  end.

(** The requests it sends, in order. *)
Fixpoint trace {A : Type} (p : Prog A) (s : Store) : list Query :=
  match p with
  | Ret _ | Throw _ => []
  | Vis q k => let (x, s') := perform q s in q :: trace (k x) s'
  end.

(** Handlers running at once: the database serves one request at a time,
    and [schedule] names the handler whose next request is served. *)
Definition step {A : Type} (p : Prog A) (s : Store) : Prog A * Store :=
  match p with
  | Vis q k => let (x, s') := perform q s in (k x, s')
  | _ => (p, s)
  end.

Fixpoint set_nth {A : Type} (i : nat) (x : A) (l : list A) : list A :=
  match l, i with
  | [], _ => []
  | _ :: l', O => x :: l'
  | y :: l', S i' => y :: set_nth i' x l'
  end.

Fixpoint run_schedule {A : Type} (schedule : list nat)
  (handlers : list (Prog A)) (s : Store) : list (Prog A) * Store :=
  match schedule with
  | [] => (handlers, s)
  | i :: schedule' =>
      match nth_error handlers i with
      | Some p =>
          let (p', s') := step p s in
          run_schedule schedule' (set_nth i p' handlers) s'
      | None => run_schedule schedule' handlers s
      end
  end.

Definition finished {A : Type} (p : Prog A) : bool :=
  match p with
  | Vis _ _ => false
  | _ => true
  end.

(** Every request a program can come to send, whatever the answers it
    gets, is a good one. *)
Inductive always {A : Type} (good : Query -> Prop) : Prog A -> Prop :=
| always_Ret (a : A) : always good (Ret a)
| always_Throw (msg : string) : always good (Throw msg)
| always_Vis (q : Query) (k : answer q -> Prog A) :
    good q -> (forall x, always good (k x)) -> always good (Vis q k).

(* ================================================================= *)
(** ** The handler (lines 59-289) *)

(** What a request meets outside the store: the server's date
    ([new Date().toISOString().split('T')[0]]) and the auth provider, which
    gives the id of the user a bearer token belongs to, or nothing when it
    reports an error, knows no such user or fails. *)
Record Env := {
  today : jsstring;
  getUser : jsstring -> option jsstring
}.

Inductive Body :=
| Text (text : string)
| ErrorBody (error : string)
| RateLimitResponse (canGenerate : bool)
    (generationsUsed generationsRemaining : Z)
    (isAuthenticated : bool) (limitType : LimitType)
| LimitExceeded (error : string) (canGenerate : bool)
    (generationsUsed generationsRemaining : Z)
| Recorded (success : bool) (generationsUsed generationsRemaining : Z).

Record Response := {
  status : Z;
  body : Body
}.

Definition ok (b : Body) : Response := {| status := 200; body := b |}.

(** Lines 81-98: the caller is authenticated when the [Authorization]
    header starts with ['Bearer '] and the auth provider knows the token. *)
Definition authenticate (env : Env) (req : Request) : option jsstring :=
  match authorization req with
  | Some authHeader =>
      if Js.truthy (Some authHeader)
         && Js.startsWith (Js.lit "Bearer ") authHeader
      then getUser env (Js.replace (Js.lit "Bearer ") [] authHeader)
      else None
  | None => None
  end.

Definition isSome {A : Type} (o : option A) : bool :=
  match o with
  | Some _ => true
  | None => false
  end.

Definition maxGenerations (isAuthenticated : bool) : Z :=
  if isAuthenticated then AUTHENTICATED_DAILY_LIMIT else ANONYMOUS_DAILY_LIMIT.

(** [data?.generations_used || 0] *)
Definition or0 (data : option Z) : Z :=
  match data with
  | Some n => n
  | None => 0
  end.

(** [rows.reduce((sum, record) => sum + record.generations_used, 0)] *)
Definition sum (rows : list Z) : Z := fold_left Z.add rows 0.

(** Lines 117-158: the usage [check] reports. *)
Definition check_generationsUsed (user : option jsstring)
  (anonymousId clientIP today : jsstring) : Prog Z :=
  match user with
  | Some user_id =>
      data <- query (SelectUserUsage user_id today) ;;
      Ret (or0 data)
  | None =>
      anonymousData <- query (SelectAnonymousUsage anonymousId today) ;;
      let generationsUsed := or0 anonymousData in
      ipUsage <- query (SelectIpUsage clientIP today (Some anonymousId)) ;;
      let additionalAnonymousUsage :=
        match ipUsage with
        | [] => 0
        | _ :: _ => sum ipUsage
        end in
      Ret (Z.max generationsUsed additionalAnonymousUsage)
  end.

(** Lines 179-209: the usage [record] checks against the limit. *)
Definition record_currentUsage (user : option jsstring)
  (anonymousId clientIP today : jsstring) : Prog Z :=
  match user with
  | Some user_id =>
      data <- query (SelectUserUsage user_id today) ;;
      Ret (or0 data)
  | None =>
      anonymousData <- query (SelectAnonymousUsage anonymousId today) ;;
      ipUsage <- query (SelectIpUsage clientIP today None) ;;
      let anonymousUsage := or0 anonymousData in
      let totalIpUsage := sum ipUsage in
      Ret (Z.max anonymousUsage totalIpUsage)
  end.

Definition limitTypeOf (isAuthenticated : bool) : LimitType :=
  if isAuthenticated then authenticated else anonymous.

(** Lines 116-175. [resetTime] depends on the clock only and is left out. *)
Definition check (user : option jsstring)
  (anonymousId clientIP today : jsstring) : Prog Response :=
  let isAuthenticated := isSome user in
  generationsUsed <- check_generationsUsed user anonymousId clientIP today ;;
  let canGenerate := generationsUsed <? maxGenerations isAuthenticated in
  let remaining := Z.max 0 (maxGenerations isAuthenticated - generationsUsed) in
  Ret (ok (RateLimitResponse canGenerate generationsUsed remaining
             isAuthenticated (limitTypeOf isAuthenticated))).

(** Lines 177-275. *)
Definition record (user : option jsstring)
  (anonymousId clientIP today : jsstring)
  (fingerprint errorMessage : option jsstring) : Prog Response :=
  let isAuthenticated := isSome user in
  currentUsage <- record_currentUsage user anonymousId clientIP today ;;
  if currentUsage >=? maxGenerations isAuthenticated then
    Ret {| status := 429;
           body := LimitExceeded "Generation limit exceeded" false
                     currentUsage 0 |}
  else
    match user with
    | Some user_id =>
        query (UpsertUserUsage
                 {| uu_user_id := user_id;
                    uu_date := today;
                    uu_generations_used := currentUsage + 1 |})
    | None =>
        sanitized <- lift (sanitizeFingerprint fingerprint) ;;
        query (UpsertAnonymousUsage
                 {| au_anonymous_id := anonymousId;
                    au_ip_address := clientIP;
                    au_fingerprint := sanitized;
                    au_date := today;
                    au_generations_used := currentUsage + 1 |})
    end ;;
    sanitized <- lift (sanitizeFingerprint fingerprint) ;;
    query (InsertGenerationLog
             {| gl_user_id := user;
                gl_anonymous_id := if isAuthenticated then None
                                   else Some anonymousId;
                gl_ip_address := clientIP;
                gl_fingerprint := sanitized;
                gl_success := true;
                gl_error_message :=
                  if Js.truthy errorMessage then errorMessage else None;
                gl_limit_type := limitTypeOf isAuthenticated;
                gl_generations_before := currentUsage;
                gl_generations_after := currentUsage + 1 |}) ;;
    Ret (ok (Recorded true (currentUsage + 1)
               (maxGenerations isAuthenticated - (currentUsage + 1)))).

Definition error_response (code : Z) (msg : string) : Response :=
  {| status := code; body := ErrorBody msg |}.

Definition internal_error : Response :=
  error_response 500 "Internal server error".

(** Lines 65-281, the body of [try]. *)
Definition serve_try (env : Env) (req : Request) : Prog Response :=
  let '(clientIP, isValid) := validateRequest req in
  if negb isValid then Ret (error_response 400 "Invalid request")
  else
    let user := authenticate env req in
    match json req with
    | None => Throw "Unexpected token in JSON"
    | Some r =>
        if negb (Js.truthy (fingerprint r))
        then Ret (error_response 400 "Fingerprint required")
        else
          anonymousId <- lift (createSecureAnonymousId clientIP (fingerprint r)) ;;
          if Js.eqb (action r) (Js.lit "check")
          then check user anonymousId clientIP (today env)
          else if Js.eqb (action r) (Js.lit "record")
                  && match success r with Some b => b | None => false end
          then record user anonymousId clientIP (today env)
                      (fingerprint r) (errorMessage r)
          else Ret (error_response 400 "Invalid action")
    end.

(** The function given to [Deno.serve]. *)
Definition serve (env : Env) (req : Request) : Prog Response :=
  if Js.eqb (method req) (Js.lit "OPTIONS") then Ret (ok (Text "ok"))
  else try_catch (serve_try env req) internal_error.

(** One request served alone. A handler catches what it throws, so the
    response always exists; [serve_returns] below proves it. *)
Definition respond (env : Env) (req : Request) (s : Store)
  : result Response * Store :=
  run (serve env req) s.

(** Requests served one at a time. *)
Definition serve_all (reqs : list (Env * Request)) (s : Store) : Store :=
  fold_left (fun s' er => snd (respond (fst er) (snd er) s')) reqs s.

(* ================================================================= *)
(** ** What the two operations read, and what they meet *)

(** The caller's own row of today, [0] without exactly one such row. *)
Definition own_user_usage (s : Store) (user_id date : jsstring) : Z :=
  or0 (option_map uu_generations_used
         (single (filter (user_key user_id date) (user_usage s)))).

Definition own_anonymous_usage (s : Store) (anonymous_id date : jsstring) : Z :=
  or0 (option_map au_generations_used
         (single (filter (anonymous_key anonymous_id date) (anonymous_usage s)))).

(** The total of today's rows of an IP address, all of them or all but
    those of one anonymous id. *)
Definition ip_usage (s : Store) (ip_address date : jsstring)
  (neq : option jsstring) : Z :=
  sum (map au_generations_used
         (filter (ip_key ip_address date neq) (anonymous_usage s))).

(** The usage [check] derives for a caller. *)
Definition used_at_check (s : Store) (user : option jsstring)
  (anonymousId clientIP date : jsstring) : Z :=
  match user with
  | Some user_id => own_user_usage s user_id date
  | None => Z.max (own_anonymous_usage s anonymousId date)
                  (ip_usage s clientIP date (Some anonymousId))
  end.

(** The usage [record] derives for a caller. *)
Definition used_at_record (s : Store) (user : option jsstring)
  (anonymousId clientIP date : jsstring) : Z :=
  match user with
  | Some user_id => own_user_usage s user_id date
  | None => Z.max (own_anonymous_usage s anonymousId date)
                  (ip_usage s clientIP date None)
  end.

Definition reads_only (qs : list Query) : bool :=
  forallb (fun q => negb (is_write q)) qs.

(** A request that passes validation: it is no preflight, the client's IP
    address is [clientIP], the body is [r] and its fingerprint gives the
    anonymous id [anonymousId]. *)
Definition resolved (req : Request) (clientIP anonymousId : jsstring)
  (r : RateLimitRequest) : Prop :=
  Js.eqb (method req) (Js.lit "OPTIONS") = false /\
  validateRequest req = (clientIP, true) /\
  json req = Some r /\
  createSecureAnonymousId clientIP (fingerprint r) = Ok anonymousId.

Definition wants_record (r : RateLimitRequest) : bool :=
  Js.eqb (action r) (Js.lit "record")
  && match success r with Some b => b | None => false end.

(** The response to a request that validation stops, if it does. *)
Definition rejection (req : Request) : option Response :=
  if negb (snd (validateRequest req))
  then Some (error_response 400 "Invalid request")
  else match json req with
       | None => Some internal_error
       | Some r =>
           if negb (Js.truthy (fingerprint r))
           then Some (error_response 400 "Fingerprint required")
           else match sanitizeFingerprint (fingerprint r) with
                | Thrown _ => Some internal_error
                | Ok _ => None
                end
       end.

(* ================================================================= *)
(** ** Bounds on the stored counts *)

(** No row of [user_usage] holds more than 10 and no row of
    [anonymous_usage] more than 5. *)
Definition within_caps (s : Store) : bool :=
  forallb (fun r => uu_generations_used r <=? AUTHENTICATED_DAILY_LIMIT)
          (user_usage s)
  && forallb (fun r => au_generations_used r <=? ANONYMOUS_DAILY_LIMIT)
             (anonymous_usage s).

(** A request that writes no count above the cap of its table. *)
Definition writes_within_caps (q : Query) : Prop :=
  match q with
  | UpsertUserUsage row => uu_generations_used row <= AUTHENTICATED_DAILY_LIMIT
  | UpsertAnonymousUsage row => au_generations_used row <= ANONYMOUS_DAILY_LIMIT
  | _ => True
  end.

(** The row of the user and the day is unique, as the constraint
    [UNIQUE(user_id, date)] of the table demands. *)
Definition one_user_row (s : Store) (user_id date : jsstring) : Prop :=
  (List.length (filter (user_key user_id date) (user_usage s)) <= 1)%nat.

(* ================================================================= *)
(** ** Scenarios *)

Module Scenario.

Definition date : jsstring := Js.lit "2025-01-15".

(** The auth provider knows one token. *)
Definition env : Env :=
  {| today := date;
     getUser := fun token =>
       if Js.eqb token (Js.lit "valid-token") then Some (Js.lit "user-1")
       else None |}.

Definition ip : jsstring := Js.lit "203.0.113.7".

Definition post (fp : option jsstring) (act : string)
  (succ : option bool) (msg auth : option jsstring) : Request :=
  {| method := Js.lit "POST";
     x_forwarded_for := Some ip;
     x_real_ip := None;
     cf_connecting_ip := None;
     authorization := auth;
     json := Some {| action := Js.lit act; fingerprint := fp;
                     success := succ; errorMessage := msg |} |}.

Definition fpA : jsstring := Js.lit "fpA".
Definition fpB : jsstring := Js.lit "fpB".

Definition idA : jsstring := Sha256.hex (Js.lit "203.0.113.7:fpA").
Definition idB : jsstring := Sha256.hex (Js.lit "203.0.113.7:fpB").

Definition checkA : Request := post (Some fpA) "check" None None None.
Definition recordA : Request := post (Some fpA) "record" (Some true) None None.
Definition recordB : Request := post (Some fpB) "record" (Some true) None None.

Definition bearer : option jsstring := Some (Js.lit "Bearer valid-token").

Definition checkU : Request := post (Some fpA) "check" None None bearer.
Definition recordU : Request := post (Some fpA) "record" (Some true) None bearer.

(** The generation failed and the client reports it. *)
Definition failedA : Request :=
  post (Some fpA) "record" (Some false) (Some (Js.lit "model unavailable")) None.

(** A fingerprint of 501 characters. *)
Definition oversized : Request :=
  post (Some (repeat 97%N 501)) "check" None None None.

(** A body that is not JSON. *)
Definition malformed : Request :=
  {| method := Js.lit "POST";
     x_forwarded_for := Some ip;
     x_real_ip := None;
     cf_connecting_ip := None;
     authorization := None;
     json := None |}.

Definition row (anonymous_id fp : jsstring) (n : Z) : AnonymousUsageRow :=
  {| au_anonymous_id := anonymous_id;
     au_ip_address := ip;
     au_fingerprint := fp;
     au_date := date;
     au_generations_used := n |}.

(** Two fingerprints of one IP address, each with 3 generations today. *)
Definition three_each : Store :=
  {| user_usage := [];
     anonymous_usage := [row idA fpA 3; row idB fpB 3];
     generation_logs := [] |}.

(** Ten generations of the signed-in user are on record. *)
Definition user_at_cap : Store :=
  {| user_usage := [ {| uu_user_id := Js.lit "user-1"; uu_date := date;
                        uu_generations_used := 10 |} ];
     anonymous_usage := [];
     generation_logs := [] |}.

Definition counts (s : Store) : list Z * list Z * nat :=
  (map uu_generations_used (user_usage s),
   map au_generations_used (anonymous_usage s),
   List.length (generation_logs s)).

End Scenario.

Import Scenario.

(* ================================================================= *)
(** ** Collisions of SHA-256 *)




(* ================================================================= *)
(** ** What a request does to the store *)

(** The answers to requests served one at a time, with the store they
    leave. *)
Fixpoint serve_each (reqs : list (Env * Request)) (s : Store)
  : list (result Response) * Store :=
  match reqs with
  | [] => ([], s)
  | (e, req) :: reqs' =>
      let (answer, s') := respond e req s in
      let (answers, s'') := serve_each reqs' s' in
      (answer :: answers, s'')
  end.

(** The answer to an accepted record: [{ success: true, ... }]. *)
Definition is_recorded (answer : result Response) : bool :=
  match answer with
  | Ok {| status := _; body := Recorded _ _ _ |} => true
  | _ => false
  end.

(** The row of [generation_logs] an accepted record inserts (lines 254-266). *)
Definition log_entry (user : option jsstring)
  (anonymousId clientIP sanitized : jsstring) (errorMessage : option jsstring)
  (currentUsage : Z) : GenerationLog :=
  {| gl_user_id := user;
     gl_anonymous_id := if isSome user then None else Some anonymousId;
     gl_ip_address := clientIP;
     gl_fingerprint := sanitized;
     gl_success := true;
     gl_error_message := if Js.truthy errorMessage then errorMessage else None;
     gl_limit_type := limitTypeOf (isSome user);
     gl_generations_before := currentUsage;
     gl_generations_after := currentUsage + 1 |}.

(** The usage row an accepted record upserts (lines 225-251). *)
Definition usage_upsert (user : option jsstring)
  (anonymousId clientIP date sanitized : jsstring) (currentUsage : Z) : Query :=
  match user with
  | Some user_id =>
      UpsertUserUsage {| uu_user_id := user_id; uu_date := date;
                         uu_generations_used := currentUsage + 1 |}
  | None =>
      UpsertAnonymousUsage
        {| au_anonymous_id := anonymousId; au_ip_address := clientIP;
           au_fingerprint := sanitized; au_date := date;
           au_generations_used := currentUsage + 1 |}
  end.

(** The store after these two writes. *)
Definition accepted_store (s : Store) (user : option jsstring)
  (anonymousId clientIP date sanitized : jsstring)
  (errorMessage : option jsstring) (currentUsage : Z) : Store :=
  snd (perform
         (InsertGenerationLog
            (log_entry user anonymousId clientIP sanitized errorMessage
               currentUsage))
         (snd (perform
                 (usage_upsert user anonymousId clientIP date sanitized
                    currentUsage) s))).

(** The five ways a request ends, each with the answer, the store and the
    requests sent to the database. *)
Inductive served (e : Env) (req : Request) (s : Store)
  : result Response * Store -> list Query -> Prop :=
| served_preflight :
    Js.eqb (method req) (Js.lit "OPTIONS") = true ->
    served e req s (Ok (ok (Text "ok")), s) []
| served_rejected (response : Response) :
    Js.eqb (method req) (Js.lit "OPTIONS") = false ->
    rejection req = Some response ->
    served e req s (Ok response, s) []
| served_check (clientIP anonymousId : jsstring) (r : RateLimitRequest) :
    resolved req clientIP anonymousId r ->
    Js.eqb (action r) (Js.lit "check") = true ->
    let user := authenticate e req in
    let used := used_at_check s user anonymousId clientIP (today e) in
    let cap := maxGenerations (isSome user) in
    served e req s
      (Ok (ok (RateLimitResponse (used <? cap) used (Z.max 0 (cap - used))
                 (isSome user) (limitTypeOf (isSome user)))), s)
      (trace (check_generationsUsed user anonymousId clientIP (today e)) s)
| served_invalid_action (clientIP anonymousId : jsstring)
    (r : RateLimitRequest) :
    resolved req clientIP anonymousId r ->
    Js.eqb (action r) (Js.lit "check") = false ->
    wants_record r = false ->
    served e req s (Ok (error_response 400 "Invalid action"), s) []
| served_exceeded (clientIP anonymousId : jsstring) (r : RateLimitRequest) :
    resolved req clientIP anonymousId r ->
    Js.eqb (action r) (Js.lit "check") = false ->
    wants_record r = true ->
    let user := authenticate e req in
    let currentUsage := used_at_record s user anonymousId clientIP (today e) in
    maxGenerations (isSome user) <= currentUsage ->
    served e req s
      (Ok {| status := 429;
             body := LimitExceeded "Generation limit exceeded" false
                       currentUsage 0 |}, s)
      (trace (record_currentUsage user anonymousId clientIP (today e)) s)
| served_accepted (clientIP anonymousId sanitized : jsstring)
    (r : RateLimitRequest) :
    resolved req clientIP anonymousId r ->
    Js.eqb (action r) (Js.lit "check") = false ->
    wants_record r = true ->
    sanitizeFingerprint (fingerprint r) = Ok sanitized ->
    let user := authenticate e req in
    let currentUsage := used_at_record s user anonymousId clientIP (today e) in
    currentUsage < maxGenerations (isSome user) ->
    served e req s
      (Ok (ok (Recorded true (currentUsage + 1)
                 (maxGenerations (isSome user) - (currentUsage + 1)))),
       accepted_store s user anonymousId clientIP (today e) sanitized
         (errorMessage r) currentUsage)
      (trace (record_currentUsage user anonymousId clientIP (today e)) s
       ++ [usage_upsert user anonymousId clientIP (today e) sanitized
             currentUsage;
           InsertGenerationLog
             (log_entry user anonymousId clientIP sanitized (errorMessage r)
                currentUsage)]).

(* ================================================================= *)
(** ** Well-formed stores *)

(** The row of the anonymous id and the day is unique, as the constraint
    [UNIQUE(anonymous_id, date)] of the table demands. *)
Definition one_anonymous_row (s : Store) (anonymous_id date : jsstring) : Prop :=
  (List.length (filter (anonymous_key anonymous_id date) (anonymous_usage s))
   <= 1)%nat.

(** No count is negative. *)
Definition nonneg_counts (s : Store) : bool :=
  forallb (fun r => 0 <=? uu_generations_used r) (user_usage s)
  && forallb (fun r => 0 <=? au_generations_used r) (anonymous_usage s).

(** A store as the database keeps it: both uniqueness constraints hold and
    no count is negative. The empty store is one. *)
Definition store_ok (s : Store) : Prop :=
  (forall user_id date, one_user_row s user_id date)
  /\ (forall anonymous_id date, one_anonymous_row s anonymous_id date)
  /\ nonneg_counts s = true.

(** How many of the answers are accepted records. *)
Definition count_recorded (answers : list (result Response)) : nat :=
  List.length (filter is_recorded answers).

(** How many of the requests are accepted records of one user on one day,
    when they are served one at a time. *)
Fixpoint recorded_by (user_id date : jsstring) (reqs : list (Env * Request))
  (s : Store) : nat :=
  match reqs with
  | [] => O
  | (e, req) :: reqs' =>
      let (answer, s') := respond e req s in
      ((if is_recorded answer
           && match authenticate e req with
              | Some u => Js.eqb u user_id
              | None => false
              end
           && Js.eqb (today e) date
        then 1 else 0) + recorded_by user_id date reqs' s')%nat
  end.

(** What the handler writes in [generation_logs]: a success, one more
    generation than before, from below the cap of the limit type, with an
    anonymous id exactly for the anonymous limit type. *)
Definition log_row_ok (l : GenerationLog) : bool :=
  gl_success l
  && (gl_generations_after l =? gl_generations_before l + 1)
  && (gl_generations_before l
      <? match gl_limit_type l with
         | authenticated => AUTHENTICATED_DAILY_LIMIT
         | anonymous => ANONYMOUS_DAILY_LIMIT
         end)
  && match gl_limit_type l with
     | authenticated => negb (isSome (gl_anonymous_id l))
     | anonymous => isSome (gl_anonymous_id l)
     end.

(** The request as it is without its [Authorization] header. *)
Definition without_authorization (req : Request) : Request :=
  {| method := method req;
     x_forwarded_for := x_forwarded_for req;
     x_real_ip := x_real_ip req;
     cf_connecting_ip := cf_connecting_ip req;
     authorization := None;
     json := json req |}.

(** The first and the last character of a string. *)
Definition first_char (s : jsstring) : option Js.char := hd_error s.
Definition last_char (s : jsstring) : option Js.char := hd_error (rev s).

Definition not_white (c : option Js.char) : bool :=
  match c with
  | Some x => negb (Js.isWhiteSpace x)
  | None => false
  end.

(** The rows of [anonymous_usage] when one fingerprint of one address has
    [k] generations today and nobody else has any. *)
Definition lone_rows (anonymousId clientIP sanitized date : jsstring) (k : Z)
  : list AnonymousUsageRow :=
  if k =? 0 then []
  else [ {| au_anonymous_id := anonymousId; au_ip_address := clientIP;
            au_fingerprint := sanitized; au_date := date;
            au_generations_used := k |} ].

(* ================================================================= *)
(** ** The fingerprint of the browser (src/unnamed/part_003, lines 79-193)

    What the browser reports, the clock and [Math.random] are given: the
    joined components (or the failure to collect them), [Date.now()] and
    the text of [Math.random().toString(36)]. *)

Module Fingerprint.

(** [ToInt32], what the bit operators make of a number. *)
Definition toInt32 (x : Z) : Z :=
  (x + 2147483648) mod 4294967296 - 2147483648.

(** [hash << 5] *)
Definition shl5 (hash : Z) : Z := toInt32 (toInt32 hash * 32).

(** Lines 162-164, one turn of the loop:
    [hash = ((hash << 5) - hash) + char; hash = hash & hash]. *)
Definition hash_char (hash : Z) (char : Js.char) : Z :=
  toInt32 (shl5 hash - hash + Z.of_N char).

(** One digit of base 36: [0-9] then [a-z]. *)
Definition digit36 (d : Z) : Js.char :=
  Z.to_N (if d <? 10 then 48 + d else 87 + d).

Fixpoint digits36 (fuel : nat) (n : Z) : jsstring :=
  match fuel with
  | O => []
  | S fuel' =>
      (if n <? 36 then [] else digits36 fuel' (n / 36)) ++ [digit36 (n mod 36)]
  end.

(** [n.toString(36)] for an integer [0 <= n]. *)
Definition toString36 (n : Z) : jsstring :=
  digits36 (S (Z.to_nat (Z.log2 n))) n.

(** [s.substring(a, b)] for [0 <= a <= b]. *)
Definition substring (a b : Z) (s : jsstring) : jsstring :=
  firstn (Z.to_nat (b - a)) (skipn (Z.to_nat a) s).

(** Lines 154-166. *)
Definition hashFingerprint (fingerprint : jsstring) : jsstring :=
  if Js.length fingerprint =? 0 then Js.lit "0"
  else toString36 (Z.abs (fold_left hash_char fingerprint 0)).

(** [generateFingerprint]: [components] is [components.join('|')], or the
    exception thrown while the components were collected. *)
Definition generateFingerprint (components : result jsstring)
  (random36 : jsstring) : jsstring :=
  match components with
  | Ok fingerprint => hashFingerprint fingerprint
  | Thrown _ => substring 2 15 random36
  end.

(** Lines 181-184: the device id made when none is stored. *)
Definition newDeviceId (fingerprint : jsstring) (now : Z)
  (random36 : jsstring) : jsstring :=
  fingerprint ++ Js.lit "_" ++ toString36 now ++ Js.lit "_"
  ++ substring 2 8 random36.

(** The value of a string of base 36, [None] when a character is no digit
    of base 36. *)
Definition value36 (c : Js.char) : option Z :=
  let c := Z.of_N c in
  if (48 <=? c) && (c <=? 57) then Some (c - 48)
  else if (97 <=? c) && (c <=? 122) then Some (c - 87)
  else None.

Fixpoint parse36 (acc : Z) (s : jsstring) : option Z :=
  match s with
  | [] => Some acc
  | c :: s' =>
      match value36 c with
      | Some d => parse36 (acc * 36 + d) s'
      | None => None
      end
  end.

End Fingerprint.

(* ================================================================= *)
(** ** The client of the edge function
       (src/src/components/DeploymentStatus.tsx, lines 241-446)

    [localStorage] holds, under a key, a plain string or the JSON text of a
    usage record [{ date, count }] with a number for [count]. A plain
    string stands for any text [JSON.parse] rejects or reads as something
    without the date of today. Writing to [localStorage] succeeds, except
    where the code catches its failure ([getDeviceId]). *)

Module Client.

Inductive Item :=
| Plain (text : jsstring)
| UsageData (date : jsstring) (count : Z).

Definition LocalStorage := list (jsstring * Item).

Fixpoint getItem (st : LocalStorage) (key : jsstring) : option Item :=
  match st with
  | [] => None
  | (k, v) :: st' => if Js.eqb k key then Some v else getItem st' key
  end.

Definition removeItem (st : LocalStorage) (key : jsstring) : LocalStorage :=
  filter (fun kv => negb (Js.eqb (fst kv) key)) st.

Definition setItem (st : LocalStorage) (key : jsstring) (v : Item)
  : LocalStorage :=
  (key, v) :: removeItem st key.

(** [s.includes(p)] *)
Fixpoint includes (p s : jsstring) : bool :=
  Js.startsWith p s
  || match s with
     | [] => false
     | _ :: s' => includes p s'
     end.

Record SecureUsageStats := {
  generationsUsed : Z;
  generationsRemaining : Z;
  canGenerate : bool;
  isAuthenticated : bool;
  maxGenerations : Z;
  limitType : LimitType
}.

(** The session [supabase.auth.getSession()] gives, if any. *)
Record Session := {
  user : option jsstring;
  access_token : option jsstring
}.

(** [!!session?.user] *)
Definition signedIn (session : option Session) : bool :=
  match session with
  | Some ses => isSome (user ses)
  | None => false
  end.

(** [session?.access_token ? { Authorization: `Bearer ${...}` } : {}] *)
Definition authorizationOf (session : option Session) : option jsstring :=
  match session with
  | Some ses =>
      if Js.truthy (access_token ses)
      then option_map (fun t => Js.lit "Bearer " ++ t) (access_token ses)
      else None
  | None => None
  end.

Definition storageKey (isAuthenticated : bool) (deviceId : jsstring)
  : jsstring :=
  (if isAuthenticated then Js.lit "auth_usage_" else Js.lit "anon_usage_")
  ++ deviceId.

Definition capOf (isAuthenticated : bool) : Z :=
  if isAuthenticated then 10 else 5.

(** Lines 303-317 and 376-390: the stored usage when it is of today, a
    fresh [{ date: today, count: 0 }] otherwise. *)
Definition usageData (st : LocalStorage) (key today : jsstring)
  : jsstring * Z :=
  match getItem st key with
  | Some (UsageData date count) =>
      if Js.eqb date today then (date, count) else (today, 0)
  | _ => (today, 0)
  end.

(** [getFallbackUsageStats]; [resetTime] is left out. *)
Definition getFallbackUsageStats (st : LocalStorage) (deviceId today : jsstring)
  (isAuthenticated : bool) : SecureUsageStats :=
  let maxGenerations := capOf isAuthenticated in
  let generationsUsed :=
    snd (usageData st (storageKey isAuthenticated deviceId) today) in
  let generationsRemaining := Z.max 0 (maxGenerations - generationsUsed) in
  {| generationsUsed := generationsUsed;
     generationsRemaining := generationsRemaining;
     canGenerate := generationsRemaining >? 0;
     isAuthenticated := isAuthenticated;
     maxGenerations := maxGenerations;
     limitType := if isAuthenticated then authenticated else anonymous |}.

(** [recordFallbackGeneration] *)
Definition recordFallbackGeneration (st : LocalStorage)
  (deviceId today : jsstring) (isAuthenticated : bool) : LocalStorage :=
  let maxGenerations := capOf isAuthenticated in
  let key := storageKey isAuthenticated deviceId in
  let (date, count) := usageData st key today in
  setItem st key (UsageData date (Z.min (count + 1) maxGenerations)).

(** What [supabase.functions.invoke] comes back with: the answer of the
    function, or nothing when the function could not be reached.
    [response.error] is set in the second case and for every answer whose
    status is not 2xx. *)
Inductive Invoked :=
| Unreachable
| Answered (response : Response).

Definition failed (invoked : Invoked) : bool :=
  match invoked with
  | Unreachable => true
  | Answered response =>
      negb ((200 <=? status response) && (status response <=? 299))
  end.

(** [checkUsageLimit]. [None] is an object with [undefined] among its
    fields: the answer was a 2xx without the fields of a check. *)
Definition checkUsageLimit (st : LocalStorage) (deviceId today : jsstring)
  (session : option Session) (invoked : Invoked) : option SecureUsageStats :=
  if failed invoked
  then Some (getFallbackUsageStats st deviceId today (signedIn session))
  else match invoked with
       | Answered {| status := _;
                     body := RateLimitResponse cg used remaining auth lt |} =>
           Some {| generationsUsed := used;
                   generationsRemaining := remaining;
                   canGenerate := cg;
                   isAuthenticated := auth;
                   maxGenerations := if auth then 10 else 5;
                   limitType := lt |}
       | _ => None
       end.



(** What the browser gives [getDeviceId] when it makes a new id: the
    joined components of the fingerprint (or the failure to collect them),
    the text of the [Math.random()] of the fallback fingerprint, the clock,
    the text of the [Math.random()] of the id, and whether
    [localStorage.setItem] goes through or throws. *)
Record Browser := {
  components : result jsstring;
  fallback36 : jsstring;
  now : Z;
  random36 : jsstring;
  writable : bool
}.

Section Device.

(** [JSON.stringify] of a usage record, the text under which it is
    stored. *)
Variable stringify : jsstring -> Z -> jsstring.

(** The string [localStorage.getItem] returns for an item. *)
Definition textOf (v : Item) : jsstring :=
  match v with
  | Plain text => text
  | UsageData date count => stringify date count
  end.

(** [getDeviceId] (src/unnamed/part_003, lines 176-194): the id and the
    storage it leaves. A failing [setItem] is caught. *)
Definition getDeviceId (st : LocalStorage) (b : Browser)
  : jsstring * LocalStorage :=
  let storageKey := Js.lit "device_id_v2" in
  let deviceId := option_map textOf (getItem st storageKey) in
  if negb (Js.truthy deviceId)
  then
    let fingerprint :=
      Fingerprint.generateFingerprint (components b) (fallback36 b) in
    let deviceId :=
      Fingerprint.newDeviceId fingerprint (now b) (random36 b) in
    (deviceId,
     if writable b then setItem st storageKey (Plain deviceId) else st)
  else (match deviceId with Some d => d | None => [] end, st).

(** [clearLocalData]: the keys that go, then [this.deviceId =
    getDeviceId()]; the new [deviceId] and the storage. *)
Definition clearLocalData (st : LocalStorage) (b : Browser)
  : jsstring * LocalStorage :=
  getDeviceId
    (filter (fun kv =>
               negb (includes (Js.lit "usage") (fst kv)
                     || includes (Js.lit "device_id") (fst kv)
                     || includes (Js.lit "session_id") (fst kv))) st)
    b.

End Device.

(** How a request of the client reaches the function: not at all, with
    the headers the platform adds and the answer coming back, or with these
    headers and the answer lost on its way back (the connection drops, the
    client gives up waiting). [default_authorization] is the
    [Authorization] header sent when the client gives none. *)
Inductive Network :=
| Offline
| Online (x_forwarded_for x_real_ip cf_connecting_ip
          default_authorization : option jsstring)
| AnswerLost (x_forwarded_for x_real_ip cf_connecting_ip
              default_authorization : option jsstring).

Definition requestOf (forwarded real cf default_auth : option jsstring)
  (session : option Session) (body : RateLimitRequest) : Request :=
  {| method := Js.lit "POST";
     x_forwarded_for := forwarded;
     x_real_ip := real;
     cf_connecting_ip := cf;
     authorization := match authorizationOf session with
                      | Some h => Some h
                      | None => default_auth
                      end;
     json := Some body |}.

(** [supabase.functions.invoke('rate-limit', { body, headers })] against
    the handler and its store. *)
Definition invoke (net : Network) (e : Env) (session : option Session)
  (body : RateLimitRequest) (s : Store) : Invoked * Store :=
  match net with
  | Offline => (Unreachable, s)
  | Online forwarded real cf default_auth =>
      match respond e (requestOf forwarded real cf default_auth session body) s
      with
      | (Ok response, s') => (Answered response, s')
      | (Thrown _, s') => (Unreachable, s')
      end
  | AnswerLost forwarded real cf default_auth =>
      (Unreachable,
       snd (respond e (requestOf forwarded real cf default_auth session body)
              s))
  end.

(** The bodies of the two calls (lines 265-268 and 338-343). *)
Definition checkBody (deviceId : jsstring) : RateLimitRequest :=
  {| action := Js.lit "check"; fingerprint := Some deviceId;
     success := None; errorMessage := None |}.


(** The rows [getUsageAnalytics] counts (lines 413-443); [data] is what
    the query selected. *)
Record Analytics := {
  totalGenerations : nat;
  successfulGenerations : nat;
  failedGenerations : nat;
  uniqueAuthenticatedUsers : nat;
  uniqueAnonymousUsers : nat;
  totalUniqueUsers : nat
}.

Definition option_jsstring_eq_dec (a b : option jsstring) : {a = b} + {a <> b}.
Proof. repeat decide equality. Defined.

(** [new Set(...).size] *)
Definition distinct (l : list (option jsstring)) : nat :=
  List.length (nodup option_jsstring_eq_dec l).

Definition getUsageAnalytics (data : list GenerationLog) : Analytics :=
  let users := filter (fun l => Js.truthy (gl_user_id l)) data in
  let others := filter (fun l => negb (Js.truthy (gl_user_id l))) data in
  let uniqueUsers := distinct (map gl_user_id users) in
  let uniqueAnonymous := distinct (map gl_anonymous_id others) in
  {| totalGenerations := List.length data;
     successfulGenerations := List.length (filter gl_success data);
     failedGenerations :=
       List.length (filter (fun l => negb (gl_success l)) data);
     uniqueAuthenticatedUsers := uniqueUsers;
     uniqueAnonymousUsers := uniqueAnonymous;
     totalUniqueUsers := (uniqueUsers + uniqueAnonymous)%nat |}.

End Client.

(** [n] calls of [recordFallbackGeneration] on one day. *)
Definition fallbackRecords (n : nat) (st : Client.LocalStorage)
  (deviceId today : jsstring) (isAuthenticated : bool) : Client.LocalStorage :=
  Nat.iter n
    (fun st' => Client.recordFallbackGeneration st' deviceId today
                  isAuthenticated) st.

(** The statistics of a day without a generation. *)
Definition freshStats (isAuthenticated : bool) : Client.SecureUsageStats :=
  {| Client.generationsUsed := 0;
     Client.generationsRemaining := Client.capOf isAuthenticated;
     Client.canGenerate := true;
     Client.isAuthenticated := isAuthenticated;
     Client.maxGenerations := Client.capOf isAuthenticated;
     Client.limitType := if isAuthenticated then authenticated else anonymous |}.

(** Statistics whose fields agree with each other. *)
Definition stats_ok (stats : Client.SecureUsageStats) : Prop :=
  0 <= Client.generationsRemaining stats
  /\ Client.canGenerate stats = (0 <? Client.generationsRemaining stats)
  /\ Client.maxGenerations stats = Client.capOf (Client.isAuthenticated stats)
  /\ Client.limitType stats
     = (if Client.isAuthenticated stats then authenticated else anonymous)
  /\ (Client.canGenerate stats = true ->
      Client.generationsUsed stats + Client.generationsRemaining stats
      = Client.maxGenerations stats).

(* ================================================================= *)
(** ** The rate limiter of the browser *)

(** The class [RateLimiter]. Times are the milliseconds of [Date.now()];
    the object is its [calls], the configuration is fixed by the
    constructor. The copy kept in [localStorage] is left out. *)
Module RateLimiter.

Record Config := {
  maxCalls : Z;
  timeWindow : Z
}.

(** The constructor. *)
Definition create (maxCalls timeWindowMinutes : Z) : Config :=
  {| maxCalls := maxCalls; timeWindow := timeWindowMinutes * 60 * 1000 |}.

Definition anonymousRateLimiter : Config := create 5 1440.
Definition userRateLimiter : Config := create 5 1440.

(** [callTime => now - callTime < this.timeWindow] *)
Definition inWindow (c : Config) (now callTime : Z) : bool :=
  now - callTime <? timeWindow c.

(** [canMakeCall]: the calls kept, and the answer. *)
Definition canMakeCall (c : Config) (now : Z) (calls : list Z)
  : list Z * bool :=
  let calls' := filter (inWindow c now) calls in
  (calls', Z.of_nat (List.length calls') <? maxCalls c).

(** [recordCall] *)
Definition recordCall (now : Z) (calls : list Z) : list Z :=
  calls ++ [now].

(** A number that may be [Infinity], which [Math.min()] of nothing is. *)
Inductive Number :=
| Finite (n : Z)
| Infinity.

(** [Math.min(...this.calls)] *)
Definition oldestCall (calls : list Z) : Number :=
  match calls with
  | [] => Infinity
  | t :: rest => Finite (fold_left Z.min rest t)
  end.

(** [getTimeUntilNextCall] *)
Definition getTimeUntilNextCall (c : Config) (now : Z) (calls : list Z)
  : Number :=
  if Z.of_nat (List.length calls) <? maxCalls c then Finite 0
  else match oldestCall calls with
       | Finite oldest => Finite (Z.max 0 (timeWindow c - (now - oldest)))
       | Infinity => Infinity
       end.

(** [getRemainingCalls]: the calls kept, and the answer. *)
Definition getRemainingCalls (c : Config) (now : Z) (calls : list Z)
  : list Z * Z :=
  let calls' := filter (inWindow c now) calls in
  (calls', Z.max 0 (maxCalls c - Z.of_nat (List.length calls'))).

(** [reset] *)
Definition reset : list Z := [].

(** Guarded use: [recordCall] only after [canMakeCall] said yes. Each
    attempt reads the clock twice, in [canMakeCall] and in [recordCall].
    The result is the object's [calls] and, beside it, the times of all
    the calls made. *)
Fixpoint guarded (c : Config) (attempts : list (Z * Z)) (calls made : list Z)
  : list Z * list Z :=
  match attempts with
  | [] => (calls, made)
  | (now1, now2) :: rest =>
      let (calls', yes) := canMakeCall c now1 calls in
      if yes then guarded c rest (recordCall now2 calls') (made ++ [now2])
      else guarded c rest calls' made
  end.

(** The clock does not go back. *)
Fixpoint ticking (clock : Z) (attempts : list (Z * Z)) : bool :=
  match attempts with
  | [] => true
  | (now1, now2) :: rest =>
      (clock <=? now1) && (now1 <=? now2) && ticking now2 rest
  end.

(** The calls made in the window that ends at [t]. *)
Definition madeInWindow (c : Config) (t : Z) (made : list Z) : list Z :=
  filter (fun t' => (t - timeWindow c <? t') && (t' <=? t)) made.

(** What guarded use keeps true: [calls] is [made] pruned at some reading
    of the clock, no call is in the future, and no window ending at a call
    holds more than [maxCalls] calls. *)
Definition invariant (c : Config) (clock : Z) (calls made : list Z) : Prop :=
  (exists pruned, pruned <= clock /\ calls = filter (inWindow c pruned) made)
  /\ (forall t, In t made -> t <= clock)
  /\ (forall t, In t made ->
        Z.of_nat (List.length (madeInWindow c t made)) <= maxCalls c).

End RateLimiter.

(* ################################################################# *)
(** * Part II: its properties *)

(* ================================================================= *)
(** ** Strings and the digest *)

Module JsFacts.

Lemma eqb_refl (a : jsstring) : Js.eqb a a = true.
Proof.
  induction a as [|x a IH]; simpl; [reflexivity|].
  now rewrite N.eqb_refl, IH.
Qed.

Lemma eqb_eq (a b : jsstring) : Js.eqb a b = true <-> a = b.
Proof.
  split; [|intros ->; apply eqb_refl].
  revert b; induction a as [|x a IH]; intros [|y b]; simpl; try discriminate.
  - reflexivity.
  - intros H. apply andb_true_iff in H as [H1 H2].
    apply N.eqb_eq in H1. apply IH in H2. now subst.
Qed.

Lemma eqb_neq (a b : jsstring) : Js.eqb a b = false <-> a <> b.
Proof.
  rewrite <- eqb_eq. destruct (Js.eqb a b); split; congruence.
Qed.

End JsFacts.

(** The digest of the three-byte message of FIPS 180-4, appendix B.1, and
    of its two-block message of appendix B.2. *)
Example sha256_abc :
  Sha256.hex (Js.lit "abc") =
  Js.lit "ba7816bf8f01cfea414140de5dae2223b00361a396177a9cb410ff61f20015ad".
Proof. vm_compute. reflexivity. Qed.

Example sha256_two_blocks :
  Sha256.hex
    (Js.lit "abcdbcdecdefdefgefghfghighijhijkijkljklmklmnlmnomnopnopq") =
  Js.lit "248d6a61d20638b8e5c026930c3e6039a33ce45964ff2167f6ecedd419db06c1".
Proof. vm_compute. reflexivity. Qed.

(* ================================================================= *)
(** ** Running programs *)

Section Running.

Context {A B : Type}.

Lemma run_bind (p : Prog A) (f : A -> Prog B) (s : Store) :
  run (bind p f) s =
  match run p s with
  | (Ok a, s') => run (f a) s'
  | (Thrown msg, s') => (Thrown msg, s')
  end.
Proof.
  revert s; induction p as [a|msg|q k IH]; intros s; simpl; try reflexivity.
  destruct (perform q s) as [x s']. apply IH.
Qed.

Lemma trace_bind (p : Prog A) (f : A -> Prog B) (s : Store) :
  trace (bind p f) s =
  trace p s ++ match run p s with
               | (Ok a, s') => trace (f a) s'
               | (Thrown _, _) => []
               end.
Proof.
  revert s; induction p as [a|msg|q k IH]; intros s; simpl; try reflexivity.
  destruct (perform q s) as [x s']. simpl. now rewrite IH.
Qed.

Lemma run_try_catch (p : Prog A) (h : A) (s : Store) :
  run (try_catch p h) s =
  match run p s with
  | (Ok a, s') => (Ok a, s')
  | (Thrown _, s') => (Ok h, s')
  end.
Proof.
  revert s; induction p as [a|msg|q k IH]; intros s; simpl; try reflexivity.
  destruct (perform q s) as [x s']. apply IH.
Qed.

Lemma trace_try_catch (p : Prog A) (h : A) (s : Store) :
  trace (try_catch p h) s = trace p s.
Proof.
  revert s; induction p as [a|msg|q k IH]; intros s; simpl; try reflexivity.
  destruct (perform q s) as [x s']. now rewrite IH.
Qed.

(** A property of the store that every request of a run keeps is kept by
    the run. *)
Lemma run_keeps (I : Store -> Prop) (good : Query -> Prop) :
  (forall q s, good q -> I s -> I (snd (perform q s))) ->
  forall (p : Prog A) (s : Store),
    I s -> Forall good (trace p s) -> I (snd (run p s)).
Proof.
  intros Hstep p; induction p as [a|msg|q k IH]; intros s Hs Ht; simpl in *;
    try assumption.
  specialize (Hstep q s). destruct (perform q s) as [x s']. simpl in *.
  inversion Ht; subst. apply IH; auto.
Qed.

(** A run that only reads leaves the store as it was. *)
Lemma run_reads (p : Prog A) (s : Store) :
  forallb (fun q => negb (is_write q)) (trace p s) = true ->
  snd (run p s) = s.
Proof.
  revert s; induction p as [a|msg|q k IH]; intros s; simpl; try reflexivity.
  destruct q; simpl; try discriminate; apply IH.
Qed.

End Running.

(** The two ways of running agree: a handler whose requests are served
    without another handler in between runs as [run] says. *)
Lemma run_schedule_alone {A : Type} (p : Prog A) (s : Store) :
  run_schedule (repeat 0%nat (List.length (trace p s))) [p] s =
  ([lift (fst (run p s))], snd (run p s)).
Proof.
  revert s; induction p as [a|msg|q k IH]; intros s; simpl; try reflexivity.
  destruct (perform q s) as [x s'] eqn:E. simpl. rewrite E. apply IH.
Qed.

(* ================================================================= *)
(** ** Fingerprints and anonymous ids *)

Lemma length_filter_le {X : Type} (f : X -> bool) (l : list X) :
  (List.length (filter f l) <= List.length l)%nat.
Proof.
  induction l as [|x l IH]; simpl; [lia|]. destruct (f x); simpl; lia.
Qed.


(** When the fingerprint is accepted nothing is cut off: stripping only
    shortens it. *)
Lemma sanitizeFingerprint_Ok (fp : option jsstring) (s : jsstring) :
  sanitizeFingerprint fp = Ok s ->
  exists f, fp = Some f /\ f <> [] /\ Js.length f <= MAX_FINGERPRINT_LENGTH
            /\ s = filter isAlnum f.
Proof.
  unfold sanitizeFingerprint. destruct fp as [f|]; [|discriminate].
  destruct f as [|c f]; [discriminate|]. cbn [Js.truthy negb orb].
  destruct (Js.length (c :: f) >? MAX_FINGERPRINT_LENGTH) eqn:E; [discriminate|].
  intros [= <-]. rewrite Z.gtb_ltb in E. apply Z.ltb_ge in E.
  exists (c :: f). repeat split; try discriminate; try assumption.
  unfold substring0. apply firstn_all2.
  pose proof (length_filter_le isAlnum (c :: f)) as Hle.
  unfold Js.length, MAX_FINGERPRINT_LENGTH in *. lia.
Qed.


(** The characters [isAlnum] keeps are the digits and the letters. *)
Lemma isAlnum_spec (c : Js.char) :
  isAlnum c = true <->
  (48 <= c <= 57 \/ 65 <= c <= 90 \/ 97 <= c <= 122)%N.
Proof.
  unfold isAlnum.
  rewrite !orb_true_iff, !andb_true_iff, !N.leb_le. tauto.
Qed.

(** C8. [sanitizeFingerprint] throws exactly when the fingerprint is
    missing ([undefined], [null] or the empty string, which [!fingerprint]
    treats alike) or longer than [MAX_FINGERPRINT_LENGTH] = 500 code units.
    Otherwise it returns the input without the characters outside
    [[A-Za-z0-9]], cut to 500: whatever test [keep] holds exactly of the
    code units of the digits (48 to 57), the capital letters (65 to 90)
    and the small letters (97 to 122), the result is the first 500 of the
    characters of the input that pass it, in their order, which are all of
    them; so the result holds such characters only and is at most 500
    long. *)
Theorem sanitizeFingerprint_correct (fp : option jsstring) :
  MAX_FINGERPRINT_LENGTH = 500 /\
  match sanitizeFingerprint fp with
  | Thrown _ =>
      fp = None \/ fp = Some []
      \/ exists f, fp = Some f /\ (500 < List.length f)%nat
  | Ok s =>
      exists f, fp = Some f /\ f <> [] /\ (List.length f <= 500)%nat
        /\ (forall keep : N -> bool,
              (forall c, keep c = true <->
                         (48 <= c <= 57 \/ 65 <= c <= 90 \/ 97 <= c <= 122)%N) ->
              s = firstn 500 (filter keep f) /\ s = filter keep f)
        /\ Forall (fun c => (48 <= c <= 57 \/ 65 <= c <= 90
                             \/ 97 <= c <= 122)%N) s
        /\ (List.length s <= 500)%nat
  end.
Proof.
  split; [reflexivity|].
  destruct (sanitizeFingerprint fp) as [s|msg] eqn:E.
  - destruct (sanitizeFingerprint_Ok _ E) as (f & -> & Hne & Hlen & Hs).
    pose proof (length_filter_le isAlnum f) as Hle.
    unfold Js.length, MAX_FINGERPRINT_LENGTH in Hlen.
    exists f. split; [reflexivity|]. split; [assumption|].
    split; [cbv [Js.char Js.jsstring] in *; lia|]. split; [|split].
    + intros keep Hkeep.
      assert (filter keep f = s) as ->.
      { subst s. apply filter_ext. intros c.
        destruct (keep c) eqn:Ek, (isAlnum c) eqn:Ea; try reflexivity.
        - apply Hkeep, isAlnum_spec in Ek. congruence.
        - apply isAlnum_spec, Hkeep in Ea. congruence. }
      split; [|reflexivity]. symmetry. apply firstn_all2. subst s.
      cbv [Js.char Js.jsstring] in *. lia.
    + subst s. apply Forall_forall. intros c Hc.
      apply filter_In in Hc as [_ Hc]. now apply isAlnum_spec.
    + subst s. cbv [Js.char Js.jsstring] in *. lia.
  - unfold sanitizeFingerprint in E. destruct fp as [[|c f]|]; auto.
    cbn [Js.truthy negb orb] in E. right; right. exists (c :: f).
    split; [reflexivity|].
    destruct (Js.length (c :: f) >? MAX_FINGERPRINT_LENGTH) eqn:G;
      [|discriminate]. rewrite Z.gtb_ltb in G. apply Z.ltb_lt in G.
    unfold Js.length, MAX_FINGERPRINT_LENGTH in G.
    cbv [Js.char Js.jsstring] in *. lia.
Qed.




(** *** Digests are few, strings are many

    A digest is 32 bytes and its hexadecimal text 64 characters, so among
    more strings than there are digests two have the same one. *)

Section Pigeonhole.

Variable B : Type.
Variable eq_dec : forall x y : B, {x = y} + {x <> y}.
Variable F : nat -> B.
Variable universe : list B.
Hypothesis within : forall i, In (F i) universe.



End Pigeonhole.












(* ================================================================= *)
(** ** What check and record answer *)

Lemma run_check_generationsUsed (s : Store) (user : option jsstring)
  (anonymousId clientIP date : jsstring) :
  run (check_generationsUsed user anonymousId clientIP date) s =
    (Ok (used_at_check s user anonymousId clientIP date), s)
  /\ reads_only (trace (check_generationsUsed user anonymousId clientIP date) s)
     = true.
Proof.
  destruct user as [user_id|]; simpl; split; try reflexivity.
  unfold ip_usage.
  destruct (filter (ip_key clientIP date (Some anonymousId)) (anonymous_usage s));
    reflexivity.
Qed.

Lemma run_record_currentUsage (s : Store) (user : option jsstring)
  (anonymousId clientIP date : jsstring) :
  run (record_currentUsage user anonymousId clientIP date) s =
    (Ok (used_at_record s user anonymousId clientIP date), s)
  /\ reads_only (trace (record_currentUsage user anonymousId clientIP date) s)
     = true.
Proof. destruct user as [user_id|]; simpl; split; reflexivity. Qed.

Lemma run_check (s : Store) (user : option jsstring)
  (anonymousId clientIP date : jsstring) :
  let used := used_at_check s user anonymousId clientIP date in
  let cap := maxGenerations (isSome user) in
  run (check user anonymousId clientIP date) s =
    (Ok (ok (RateLimitResponse (used <? cap) used (Z.max 0 (cap - used))
               (isSome user) (limitTypeOf (isSome user)))), s)
  /\ reads_only (trace (check user anonymousId clientIP date) s) = true.
Proof.
  destruct (run_check_generationsUsed s user anonymousId clientIP date)
    as [Hrun Htrace].
  unfold check. rewrite run_bind, trace_bind, Hrun. simpl.
  rewrite app_nil_r. auto.
Qed.

Lemma run_record_rejected (s : Store) (user : option jsstring)
  (anonymousId clientIP date : jsstring) (fp msg : option jsstring) :
  let currentUsage := used_at_record s user anonymousId clientIP date in
  maxGenerations (isSome user) <= currentUsage ->
  run (record user anonymousId clientIP date fp msg) s =
    (Ok {| status := 429;
           body := LimitExceeded "Generation limit exceeded" false
                     currentUsage 0 |}, s)
  /\ reads_only (trace (record user anonymousId clientIP date fp msg) s) = true.
Proof.
  intros currentUsage Hcap.
  destruct (run_record_currentUsage s user anonymousId clientIP date)
    as [Hrun Htrace].
  unfold record. rewrite run_bind, trace_bind, Hrun.
  fold currentUsage.
  assert ((currentUsage >=? maxGenerations (isSome user)) = true) as ->
    by (rewrite Z.geb_leb; now apply Z.leb_le).
  simpl. rewrite app_nil_r. auto.
Qed.

Lemma serve_resolved (env : Env) (req : Request)
  (clientIP anonymousId : jsstring) (r : RateLimitRequest) :
  resolved req clientIP anonymousId r ->
  serve env req =
  try_catch
    (if Js.eqb (action r) (Js.lit "check")
     then check (authenticate env req) anonymousId clientIP (today env)
     else if wants_record r
     then record (authenticate env req) anonymousId clientIP (today env)
                 (fingerprint r) (errorMessage r)
     else Ret (error_response 400 "Invalid action"))
    internal_error.
Proof.
  intros (Hm & Hv & Hj & Hid). unfold serve, serve_try.
  rewrite Hm, Hv, Hj, Hid. cbn [negb].
  assert (Js.truthy (fingerprint r) = true) as ->.
  { unfold createSecureAnonymousId in Hid.
    destruct (sanitizeFingerprint (fingerprint r)) as [x|] eqn:E;
      [|discriminate].
    destruct (sanitizeFingerprint_Ok _ E) as (f & -> & Hne & _).
    destruct f; [congruence|reflexivity]. }
  reflexivity.
Qed.

(** C4. For every check request the cap is 10 when the caller is
    authenticated and 5 otherwise, and the response has
    [canGenerate = (used < cap)] and
    [generationsRemaining = max(0, cap - used)], where [used] is the usage
    derived for the caller and today; the store is left as it was. *)
Theorem check_reports_usage_against_cap (env : Env) (req : Request)
  (s : Store) (clientIP anonymousId : jsstring) (r : RateLimitRequest) :
  resolved req clientIP anonymousId r ->
  action r = Js.lit "check" ->
  let user := authenticate env req in
  let cap := if isSome user then 10 else 5 in
  let used := used_at_check s user anonymousId clientIP (today env) in
  respond env req s =
    (Ok {| status := 200;
           body := RateLimitResponse (used <? cap) used (Z.max 0 (cap - used))
                     (isSome user) (if isSome user then authenticated
                                    else anonymous) |}, s).
Proof.
  intros Hres Hact user cap used. unfold respond.
  rewrite (serve_resolved env Hres), Hact, JsFacts.eqb_refl, run_try_catch.
  destruct (run_check s (authenticate env req) anonymousId clientIP (today env))
    as [-> _].
  reflexivity.
Qed.

(** C1. A record request with [success = true] whose re-derived usage has
    reached the cap (5 anonymous, 10 authenticated) is answered with
    HTTP 429, [canGenerate = false] and [generationsRemaining = 0]; the
    handler sends no upsert, no write at all, and the store, so the stored
    [generations_used] of the caller, is unchanged. *)
Theorem record_at_cap_is_rejected (env : Env) (req : Request)
  (s : Store) (clientIP anonymousId : jsstring) (r : RateLimitRequest) :
  resolved req clientIP anonymousId r ->
  action r = Js.lit "record" ->
  success r = Some true ->
  let user := authenticate env req in
  let cap := if isSome user then 10 else 5 in
  let currentUsage := used_at_record s user anonymousId clientIP (today env) in
  cap <= currentUsage ->
  respond env req s =
    (Ok {| status := 429;
           body := LimitExceeded "Generation limit exceeded" false
                     currentUsage 0 |}, s)
  /\ existsb is_upsert (trace (serve env req) s) = false
  /\ reads_only (trace (serve env req) s) = true.
Proof.
  intros Hres Hact Hsucc user cap currentUsage Hcap.
  subst currentUsage cap user. unfold respond.
  rewrite (serve_resolved env Hres), run_try_catch, trace_try_catch.
  unfold wants_record. rewrite Hact, Hsucc, JsFacts.eqb_refl.
  replace (Js.eqb (Js.lit "record") (Js.lit "check")) with false
    by reflexivity.
  cbn [andb].
  destruct (@run_record_rejected s (authenticate env req) anonymousId clientIP
              (today env) (fingerprint r) (errorMessage r) Hcap)
    as [-> Hreads].
  split; [reflexivity|]. split; [|exact Hreads].
  revert Hreads. unfold reads_only.
  generalize (trace (record (authenticate env req) anonymousId clientIP
                       (today env) (fingerprint r) (errorMessage r)) s).
  intros qs; induction qs as [|q qs IH]; simpl; [reflexivity|].
  intros H. apply andb_true_iff in H as [Hq Hqs].
  rewrite (IH Hqs). destruct q; simpl in *; congruence.
Qed.

(* ================================================================= *)
(** ** The caps are never exceeded *)

Lemma forallb_upsert {X : Type} (P conflict : X -> bool) (row : X)
  (rows : list X) :
  P row = true -> forallb P rows = true ->
  forallb P (upsert conflict row rows) = true.
Proof.
  intros Hrow Hrows. unfold upsert. destruct (existsb conflict rows).
  - clear -Hrow Hrows. induction rows as [|x rows IH]; simpl in *;
      [reflexivity|].
    apply andb_true_iff in Hrows as [Hx Hrows].
    rewrite (IH Hrows). destruct (conflict x); now rewrite ?Hrow, ?Hx.
  - rewrite forallb_app, Hrows. simpl. now rewrite Hrow.
Qed.

Lemma perform_within_caps (q : Query) (s : Store) :
  writes_within_caps q -> within_caps s = true ->
  within_caps (snd (perform q s)) = true.
Proof.
  unfold within_caps. intros Hq Hs. apply andb_true_iff in Hs as [Hu Ha].
  destruct q; simpl in *; rewrite ?Hu, ?Ha; try reflexivity.
  - rewrite forallb_upsert; auto. now apply Z.leb_le.
  - rewrite forallb_upsert; auto. now apply Z.leb_le.
Qed.

(** [record] writes [currentUsage + 1] only after it found
    [currentUsage] below the cap, in the same run. *)
Lemma record_writes_within_caps (s : Store) (user : option jsstring)
  (anonymousId clientIP date : jsstring) (fp msg : option jsstring) :
  Forall writes_within_caps
    (trace (record user anonymousId clientIP date fp msg) s).
Proof.
  destruct (run_record_currentUsage s user anonymousId clientIP date)
    as [Hrun Hreads].
  unfold record. rewrite trace_bind, Hrun. apply Forall_app. split.
  - revert Hreads. unfold reads_only.
    generalize (trace (record_currentUsage user anonymousId clientIP date) s).
    intros qs H. rewrite forallb_forall in H. apply Forall_forall.
    intros q Hq. apply H in Hq. destruct q; simpl in *; auto; discriminate.
  - set (currentUsage := used_at_record s user anonymousId clientIP date).
    destruct (currentUsage >=? maxGenerations (isSome user)) eqn:Hcap;
      [constructor|].
    rewrite Z.geb_leb in Hcap. apply Z.leb_gt in Hcap.
    destruct user as [user_id|]; simpl in Hcap |- *.
    + destruct (sanitizeFingerprint fp); simpl;
        repeat constructor; simpl;
        unfold AUTHENTICATED_DAILY_LIMIT in *; lia.
    + destruct (sanitizeFingerprint fp); simpl;
        repeat constructor; simpl;
        unfold ANONYMOUS_DAILY_LIMIT in *; lia.
Qed.

Lemma serve_writes_within_caps (env : Env) (req : Request) (s : Store) :
  Forall writes_within_caps (trace (serve env req) s).
Proof.
  unfold serve. destruct (Js.eqb (method req) (Js.lit "OPTIONS"));
    [constructor|].
  rewrite trace_try_catch. unfold serve_try.
  destruct (validateRequest req) as [clientIP [|]]; [|constructor].
  cbn [negb]. destruct (json req) as [r|]; [|constructor].
  destruct (Js.truthy (fingerprint r)); [|constructor]. cbn [negb].
  destruct (createSecureAnonymousId clientIP (fingerprint r))
    as [anonymousId|]; [|constructor].
  cbn [lift bind].
  destruct (Js.eqb (action r) (Js.lit "check")).
  - destruct (run_check s (authenticate env req) anonymousId clientIP
                (today env)) as [_ H].
    unfold reads_only in H. rewrite forallb_forall in H.
    apply Forall_forall. intros q Hq. apply H in Hq.
    destruct q; simpl in *; auto; discriminate.
  - destruct (_ && _); [apply record_writes_within_caps|constructor].
Qed.

Lemma respond_within_caps (env : Env) (req : Request) (s : Store) :
  within_caps s = true -> within_caps (snd (respond env req s)) = true.
Proof.
  intros Hs. unfold respond.
  apply (run_keeps (fun s => within_caps s = true) perform_within_caps);
    [assumption|apply serve_writes_within_caps].
Qed.

(** C2. Whatever requests are served one at a time, from a store whose
    rows are within the caps (the empty store is), every row of
    [user_usage] holds at most 10 and every row of [anonymous_usage] at
    most 5 in the store they leave; and the bound comes from the request
    that writes: whatever the store it meets, a request upserts no count
    above the cap, because [record] compares the usage it has just read
    with the cap before it writes that usage plus one. *)
Theorem usage_never_exceeds_cap (reqs : list (Env * Request)) (s : Store) :
  within_caps s = true ->
  within_caps (serve_all reqs s) = true
  /\ forall env req s', Forall writes_within_caps (trace (serve env req) s').
Proof.
  intros Hs. split; [|apply serve_writes_within_caps].
  revert s Hs. induction reqs as [|[env req] reqs IH]; intros s Hs; simpl.
  - assumption.
  - apply IH. now apply respond_within_caps.
Qed.

(** The same bound under any interleaving. Whatever a handler is
    answered, it upserts no count above the cap. *)
Lemma always_bind {A B : Type} (good : Query -> Prop) (p : Prog A)
  (f : A -> Prog B) :
  always good p -> (forall a, always good (f a)) -> always good (bind p f).
Proof.
  intros Hp Hf. induction Hp as [a|msg|q k Hq Hk IH]; simpl.
  - apply Hf.
  - constructor.
  - constructor; assumption.
Qed.

Lemma always_try_catch {A : Type} (good : Query -> Prop) (p : Prog A) (h : A) :
  always good p -> always good (try_catch p h).
Proof.
  intros Hp. induction Hp as [a|msg|q k Hq Hk IH]; simpl;
    constructor; assumption.
Qed.

Lemma always_lift {A : Type} (good : Query -> Prop) (r : result A) :
  always good (lift r).
Proof. destruct r; constructor. Qed.

Lemma serve_always_within_caps (e : Env) (req : Request) :
  always writes_within_caps (serve e req).
Proof.
  unfold serve. destruct (Js.eqb (method req) (Js.lit "OPTIONS"));
    [constructor|].
  apply always_try_catch. unfold serve_try.
  destruct (validateRequest req) as [clientIP [|]]; [|constructor].
  cbn [negb]. destruct (json req) as [r|]; [|constructor].
  destruct (Js.truthy (fingerprint r)); [|constructor]. cbn [negb].
  apply always_bind; [apply always_lift|]. intros anonymousId.
  destruct (Js.eqb (action r) (Js.lit "check")).
  - unfold check, check_generationsUsed.
    destruct (authenticate e req); repeat (constructor; simpl; auto; intros).
  - destruct (_ && _); [|constructor].
    unfold record. apply always_bind.
    + unfold record_currentUsage.
      destruct (authenticate e req); repeat (constructor; simpl; auto; intros).
    + intros currentUsage.
      destruct (currentUsage >=? maxGenerations (isSome (authenticate e req)))
        eqn:Hcap; [constructor|].
      rewrite Z.geb_leb in Hcap. apply Z.leb_gt in Hcap.
      apply always_bind.
      * destruct (authenticate e req); simpl in Hcap |- *.
        -- constructor; [|constructor]. simpl.
           unfold AUTHENTICATED_DAILY_LIMIT in *. lia.
        -- apply always_bind; [apply always_lift|]. intros sanitized.
           constructor; [|constructor]. simpl.
           unfold ANONYMOUS_DAILY_LIMIT in *. lia.
      * intros _. apply always_bind; [apply always_lift|]. intros sanitized.
        simpl. constructor; [exact I|]. intros _. constructor.
Qed.

Lemma step_keeps {A : Type} (p : Prog A) (s : Store) :
  always writes_within_caps p -> within_caps s = true ->
  always writes_within_caps (fst (step p s))
  /\ within_caps (snd (step p s)) = true.
Proof.
  intros Hp Hs. destruct Hp as [a|msg|q k Hq Hk]; simpl;
    [split; [constructor|assumption]..|].
  pose proof (@perform_within_caps q s Hq Hs) as H.
  destruct (perform q s) as [x s']. simpl in *. auto.
Qed.

Lemma Forall_set_nth {A : Type} (P : A -> Prop) (i : nat) (x : A)
  (l : list A) :
  P x -> Forall P l -> Forall P (set_nth i x l).
Proof.
  intros Hx Hl. revert i. induction Hl as [|y l Hy Hl IH]; intros i.
  - destruct i; simpl; constructor.
  - destruct i; simpl; constructor; auto.
Qed.

(** X12. However the requests of any handlers of this function
    interleave, a store within the caps stays within the caps. *)
Lemma interleaved_usage_never_exceeds_cap (schedule : list nat)
  (reqs : list (Env * Request)) (s : Store) :
  within_caps s = true ->
  within_caps
    (snd (run_schedule schedule
            (map (fun er => serve (fst er) (snd er)) reqs) s)) = true.
Proof.
  assert (Forall (always writes_within_caps)
            (map (fun er => serve (fst er) (snd er)) reqs)) as Hall.
  { apply Forall_forall. intros p Hp. apply in_map_iff in Hp as (er & <- & _).
    apply serve_always_within_caps. }
  revert Hall. generalize (map (fun er => serve (fst er) (snd er)) reqs).
  intros handlers Hall. revert handlers Hall s.
  induction schedule as [|i schedule IH]; intros handlers Hall s Hs; simpl.
  - assumption.
  - destruct (nth_error handlers i) as [p|] eqn:Hp; [|now apply IH].
    assert (always writes_within_caps p) as Hgood.
    { rewrite Forall_forall in Hall. eapply Hall, nth_error_In, Hp. }
    destruct (@step_keeps _ p s Hgood Hs) as [Hp' Hs'].
    destruct (step p s) as [p' s']. simpl in *.
    apply IH; [|assumption]. now apply Forall_set_nth.
Qed.

(* ================================================================= *)
(** ** Requests that are turned away *)

(** The handler always answers: what it throws, it catches. *)
Lemma serve_returns (e : Env) (req : Request) (s : Store) :
  exists response, fst (respond e req s) = Ok response.
Proof.
  unfold respond, serve.
  destruct (Js.eqb (method req) (Js.lit "OPTIONS")); simpl; [eauto|].
  rewrite run_try_catch.
  destruct (run (serve_try e req) s) as [[response|msg] s']; simpl; eauto.
Qed.

(** No request that validation stops reaches the store, whether it is
    answered with 400 or with 500. *)
Lemma invalid_request_reaches_no_store (e : Env) (req : Request) (s : Store)
  (response : Response) :
  Js.eqb (method req) (Js.lit "OPTIONS") = false ->
  rejection req = Some response ->
  respond e req s = (Ok response, s) /\ trace (serve e req) s = [].
Proof.
  unfold rejection, respond, serve, serve_try, createSecureAnonymousId.
  intros -> H. rewrite run_try_catch, trace_try_catch.
  destruct (validateRequest req) as [clientIP [|]]; simpl in *;
    [|injection H as <-; auto].
  destruct (json req) as [r|]; simpl in *; [|injection H as <-; auto].
  destruct (Js.truthy (fingerprint r)); simpl in *;
    [|injection H as <-; auto].
  destruct (sanitizeFingerprint (fingerprint r)); simpl in *;
    [discriminate|injection H as <-; auto].
Qed.

(** A record request whose [success] is not [true] is an invalid action:
    nothing is read, nothing is written, nothing is logged. *)
Lemma failed_record_is_invalid_action (e : Env) (req : Request) (s : Store)
  (clientIP anonymousId : jsstring) (r : RateLimitRequest) :
  resolved req clientIP anonymousId r ->
  action r = Js.lit "record" ->
  success r <> Some true ->
  respond e req s = (Ok (error_response 400 "Invalid action"), s)
  /\ trace (serve e req) s = [].
Proof.
  intros Hres Hact Hsucc. unfold respond.
  rewrite (serve_resolved e Hres), run_try_catch, trace_try_catch.
  unfold wants_record. rewrite Hact.
  replace (Js.eqb (Js.lit "record") (Js.lit "check")) with false
    by reflexivity.
  destruct (success r) as [[|]|]; [congruence| | ]; simpl; auto.
Qed.

(** A check leaves the store as it was. *)
Lemma check_never_mutates (e : Env) (req : Request) (s : Store)
  (clientIP anonymousId : jsstring) (r : RateLimitRequest) :
  resolved req clientIP anonymousId r ->
  action r = Js.lit "check" ->
  snd (respond e req s) = s.
Proof.
  intros Hres Hact. unfold respond.
  rewrite (serve_resolved e Hres), Hact, JsFacts.eqb_refl, run_try_catch.
  destruct (run_check s (authenticate e req) anonymousId clientIP (today e))
    as [-> _].
  reflexivity.
Qed.

(* ================================================================= *)
(** ** Records of one user, served one at a time *)

Lemma filter_none_map {X : Type} (conflict : X -> bool) (row : X)
  (rows : list X) :
  filter conflict rows = [] ->
  map (fun r => if conflict r then row else r) rows = rows.
Proof.
  induction rows as [|x rows IH]; simpl; [reflexivity|].
  destruct (conflict x); [discriminate|]. intros H. now rewrite IH.
Qed.

Lemma existsb_false_filter {X : Type} (conflict : X -> bool) (rows : list X) :
  existsb conflict rows = false -> filter conflict rows = [].
Proof.
  induction rows as [|x rows IH]; simpl; [reflexivity|].
  destruct (conflict x); [discriminate|]. exact IH.
Qed.

(** With at most one row in conflict, the upserted row is the only row in
    conflict afterwards. *)
Lemma filter_upsert {X : Type} (conflict : X -> bool) (row : X)
  (rows : list X) :
  conflict row = true ->
  (List.length (filter conflict rows) <= 1)%nat ->
  filter conflict (upsert conflict row rows) = [row].
Proof.
  intros Hrow Hone. unfold upsert.
  destruct (existsb conflict rows) eqn:Hex.
  - induction rows as [|x rows IH]; simpl in *; [discriminate|].
    destruct (conflict x) eqn:Cx; simpl in *.
    + rewrite Hrow. f_equal.
      assert (filter conflict rows = []) as Hnone
        by (destruct (filter conflict rows); [reflexivity|simpl in Hone; lia]).
      now rewrite (filter_none_map conflict row rows Hnone).
    + rewrite Cx. now apply IH.
  - rewrite filter_app, (existsb_false_filter _ _ Hex). simpl.
    now rewrite Hrow.
Qed.




(* ================================================================= *)
(** ** Where the handler departs from the specification *)

(** C3. Two successful record requests of the signed-in user meet on a
    fresh day. Served one after the other they leave the count 2. When
    both read before either writes, both read 0, both upsert 1 and both
    are told that one generation is used: the count is 1, an update is
    lost. The upsert writes the count that was read before, it does not
    increment in the database. *)
Theorem concurrent_records_lose_an_update :
  counts (serve_all [(env, recordU); (env, recordU)] empty_store)
    = ([2], [], 2%nat)
  /\ let '(handlers, s) :=
       run_schedule [0; 1; 0; 0; 1; 1]%nat
         [serve env recordU; serve env recordU] empty_store in
     handlers = [Ret (ok (Recorded true 1 9)); Ret (ok (Recorded true 1 9))]
     /\ counts s = ([1], [], 2%nat)
     /\ own_user_usage s (Js.lit "user-1") date <> Z.min 2 10 + 0.
Proof. vm_compute. repeat split; discriminate. Qed.

(** The same happens to an anonymous caller. *)
Example concurrent_anonymous_records_lose_an_update :
  let '(handlers, s) :=
    run_schedule [0; 0; 1; 1; 0; 0; 1; 1]%nat
      [serve env recordA; serve env recordA] empty_store in
  handlers = [Ret (ok (Recorded true 1 4)); Ret (ok (Recorded true 1 4))]
  /\ counts s = ([], [1], 2%nat).
Proof. vm_compute. repeat split. Qed.

(** C5. Fingerprint B records once and fingerprint A records once, from
    the same IP address. In the store they leave, [check] derives 2 for A
    (its own row, 2, against the other row, 1) while [record] derives 3
    (its own row, 2, against all rows of the address, its own included):
    the query of [record] lacks the [neq] filter the query of [check] has.
    A's next record is answered with 4 used and writes 4 in A's row. *)
Theorem record_usage_differs_from_check_usage :
  let s := serve_all [(env, recordB); (env, recordA)] empty_store in
  anonymous_usage s = [row idB fpB 1; row idA fpA 2]
  /\ run (check_generationsUsed None idA ip date) s = (Ok 2, s)
  /\ run (record_currentUsage None idA ip date) s = (Ok 3, s)
  /\ fst (respond env checkA s)
     = Ok (ok (RateLimitResponse true 2 3 false anonymous))
  /\ fst (respond env recordA s) = Ok (ok (Recorded true 4 1))
  /\ anonymous_usage (snd (respond env recordA s))
     = [row idB fpB 1; row idA fpA 4].
Proof. vm_compute. repeat split. Qed.

(** C9. A fingerprint of 501 characters makes [sanitizeFingerprint] throw,
    which the handler answers with HTTP 500, not 400; so does a body that
    is not JSON. Neither reaches the store. *)
Theorem oversized_fingerprint_is_internal_error (e : Env) (s : Store) :
  respond e oversized s
    = (Ok {| status := 500; body := ErrorBody "Internal server error" |}, s)
  /\ trace (serve e oversized) s = []
  /\ respond e malformed s
    = (Ok {| status := 500; body := ErrorBody "Internal server error" |}, s)
  /\ trace (serve e malformed) s = [].
Proof. repeat split. Qed.

(** C10. A record request with [success = false] is answered with HTTP 400,
    "Invalid action": the count is not incremented, and no log entry is
    written either. *)
Theorem failed_attempt_is_not_logged (e : Env) (s : Store) :
  respond e failedA s
    = (Ok {| status := 400; body := ErrorBody "Invalid action" |}, s)
  /\ trace (serve e failedA) s = [].
Proof. repeat split. Qed.

(* ================================================================= *)
(** ** Two fingerprints behind one IP address *)


(** The handler itself does not lead to that store: after three records
    of fingerprint A, the first record of fingerprint B stores 4 in B's
    row, and B's second record is refused. *)
Example second_fingerprint_cannot_record_three :
  let s := serve_all [(env, recordA); (env, recordA); (env, recordA);
                      (env, recordB)] empty_store in
  counts s = ([], [3; 4], 4%nat)
  /\ respond env recordB s
     = (Ok {| status := 429;
              body := LimitExceeded "Generation limit exceeded" false 7 0 |}, s).
Proof. vm_compute. repeat split. Qed.



(* ================================================================= *)
(** ** The theorems at work *)

Lemma checkA_resolved : resolved checkA ip idA
  {| action := Js.lit "check"; fingerprint := Some fpA;
     success := None; errorMessage := None |}.
Proof. repeat split; vm_compute; reflexivity. Defined.

Lemma recordU_resolved : resolved recordU ip idA
  {| action := Js.lit "record"; fingerprint := Some fpA;
     success := Some true; errorMessage := None |}.
Proof. repeat split; vm_compute; reflexivity. Defined.



Lemma check_reports_usage_against_cap_witness :
  respond env checkA three_each =
    (Ok {| status := 200;
           body := RateLimitResponse true 3 2 false anonymous |}, three_each).
Proof.
  exact (check_reports_usage_against_cap env three_each checkA_resolved
           eq_refl).
Defined.

Lemma record_at_cap_is_rejected_witness :
  respond env recordU user_at_cap =
    (Ok {| status := 429;
           body := LimitExceeded "Generation limit exceeded" false 10 0 |},
     user_at_cap)
  /\ existsb is_upsert (trace (serve env recordU) user_at_cap) = false
  /\ reads_only (trace (serve env recordU) user_at_cap) = true.
Proof.
  apply (record_at_cap_is_rejected env user_at_cap recordU_resolved eq_refl
           eq_refl).
  vm_compute. discriminate.
Defined.

Lemma usage_never_exceeds_cap_witness :
  within_caps
    (serve_all [(env, recordA); (env, recordB); (env, recordU); (env, checkA);
                (env, recordA); (env, recordB)] empty_store) = true.
Proof. apply usage_never_exceeds_cap. reflexivity. Defined.



(* ################################################################# *)
(** * Part III: more of the code, and more about it *)

Unset Implicit Arguments.

(* ================================================================= *)
(** ** Every request, case by case *)

Lemma run_record_accepted (s : Store) (user : option jsstring)
  (anonymousId clientIP date sanitized : jsstring) (fp msg : option jsstring) :
  let currentUsage := used_at_record s user anonymousId clientIP date in
  currentUsage < maxGenerations (isSome user) ->
  sanitizeFingerprint fp = Ok sanitized ->
  run (record user anonymousId clientIP date fp msg) s =
    (Ok (ok (Recorded true (currentUsage + 1)
               (maxGenerations (isSome user) - (currentUsage + 1)))),
     accepted_store s user anonymousId clientIP date sanitized msg currentUsage)
  /\ trace (record user anonymousId clientIP date fp msg) s =
     trace (record_currentUsage user anonymousId clientIP date) s
     ++ [usage_upsert user anonymousId clientIP date sanitized currentUsage;
         InsertGenerationLog
           (log_entry user anonymousId clientIP sanitized msg currentUsage)].
Proof.
  intros currentUsage Hcap Hfp.
  destruct (run_record_currentUsage s user anonymousId clientIP date)
    as [Hrun _].
  unfold record. rewrite run_bind, trace_bind, Hrun. fold currentUsage.
  assert ((currentUsage >=? maxGenerations (isSome user)) = false) as ->
    by (rewrite Z.geb_leb; apply Z.leb_gt; exact Hcap).
  rewrite Hfp. unfold accepted_store, usage_upsert, log_entry.
  destruct user as [user_id|]; simpl; split; reflexivity.
Qed.

(** Every request ends in one of the five ways. *)
Lemma serve_view (e : Env) (req : Request) (s : Store) :
  served e req s (respond e req s) (trace (serve e req) s).
Proof.
  unfold respond.
  destruct (Js.eqb (method req) (Js.lit "OPTIONS")) eqn:Hm.
  - unfold serve. rewrite Hm. simpl. now constructor.
  - destruct (rejection req) as [response|] eqn:Hrej.
    + destruct (invalid_request_reaches_no_store e req s Hm Hrej) as [Hr Ht].
      unfold respond in Hr. rewrite Hr, Ht. now constructor.
    + unfold rejection in Hrej.
      destruct (validateRequest req) as [clientIP [|]] eqn:Hv;
        simpl in Hrej; [|discriminate].
      destruct (json req) as [r|] eqn:Hj; [|discriminate].
      destruct (Js.truthy (fingerprint r)) eqn:Hfp; simpl in Hrej;
        [|discriminate].
      destruct (sanitizeFingerprint (fingerprint r)) as [sanitized|] eqn:Hs;
        [|discriminate].
      assert (resolved req clientIP (Sha256.hex (combined clientIP sanitized)) r)
        as Hres.
      { repeat split; try assumption.
        unfold createSecureAnonymousId. now rewrite Hs. }
      rewrite (serve_resolved e Hres), run_try_catch, trace_try_catch.
      destruct (Js.eqb (action r) (Js.lit "check")) eqn:Hact.
      * destruct (run_check s (authenticate e req)
                    (Sha256.hex (combined clientIP sanitized)) clientIP
                    (today e)) as [Hrun _].
        rewrite Hrun. unfold check. rewrite trace_bind.
        destruct (run_check_generationsUsed s (authenticate e req)
                    (Sha256.hex (combined clientIP sanitized)) clientIP
                    (today e)) as [-> _].
        simpl. rewrite app_nil_r. now apply (served_check e s Hres).
      * destruct (wants_record r) eqn:Hw.
        -- destruct (Z.lt_ge_cases
                       (used_at_record s (authenticate e req)
                          (Sha256.hex (combined clientIP sanitized)) clientIP
                          (today e))
                       (maxGenerations (isSome (authenticate e req))))
             as [Hlt|Hge].
           ++ destruct (@run_record_accepted s (authenticate e req)
                          (Sha256.hex (combined clientIP sanitized)) clientIP
                          (today e) sanitized (fingerprint r) (errorMessage r)
                          Hlt Hs) as [-> ->].
              now apply (served_accepted e s Hres).
           ++ destruct (@run_record_rejected s (authenticate e req)
                          (Sha256.hex (combined clientIP sanitized)) clientIP
                          (today e) (fingerprint r) (errorMessage r) Hge)
                as [Hrun _].
              rewrite Hrun. unfold record. rewrite trace_bind.
              destruct (run_record_currentUsage s (authenticate e req)
                          (Sha256.hex (combined clientIP sanitized)) clientIP
                          (today e)) as [-> _].
              assert ((used_at_record s (authenticate e req)
                         (Sha256.hex (combined clientIP sanitized)) clientIP
                         (today e)
                       >=? maxGenerations (isSome (authenticate e req))) = true)
                as -> by (rewrite Z.geb_leb; now apply Z.leb_le).
              simpl. rewrite app_nil_r. now apply (served_exceeded e s Hres).
        -- simpl. now apply (served_invalid_action e s Hres).
Qed.

(** An answer given by validation is an error, a 400 or a 500. *)
Lemma rejection_is_error (req : Request) (response : Response) :
  rejection req = Some response ->
  exists code msg, response = error_response code msg
                   /\ (code = 400 \/ code = 500).
Proof.
  unfold rejection.
  destruct (negb (snd (validateRequest req))); [intros [= <-]; eauto|].
  destruct (json req) as [r|]; [|intros [= <-]; unfold internal_error; eauto].
  destruct (negb (Js.truthy (fingerprint r))); [intros [= <-]; eauto|].
  destruct (sanitizeFingerprint (fingerprint r));
    [discriminate|intros [= <-]; unfold internal_error; eauto].
Qed.

(* ================================================================= *)
(** ** What the handler writes, and when *)

(** X1. Only an accepted record changes the store. Every other answer,
    an error answer included, comes with a store that is as it was and with
    reads only; an accepted record reads, then sends exactly one upsert of
    a usage row and one insert in [generation_logs], in this order. *)
Theorem store_changes_only_when_recorded (e : Env) (req : Request)
  (s : Store) :
  if is_recorded (fst (respond e req s))
  then exists reads upserted entry,
         reads_only reads = true
         /\ is_upsert upserted = true
         /\ trace (serve e req) s
            = reads ++ [upserted; InsertGenerationLog entry]
         /\ snd (respond e req s)
            = snd (perform (InsertGenerationLog entry)
                     (snd (perform upserted s)))
  else snd (respond e req s) = s
       /\ reads_only (trace (serve e req) s) = true.
Proof.
  destruct (serve_view e req s) as
    [Hm|response Hm Hrej|clientIP anonymousId r Hres Hact user used cap
    |clientIP anonymousId r Hres Hact Hw
    |clientIP anonymousId r Hres Hact Hw user currentUsage Hcap
    |clientIP anonymousId sanitized r Hres Hact Hw Hfp user currentUsage Hcap];
    simpl.
  - auto.
  - destruct (rejection_is_error _ _ Hrej) as (code & msg & -> & _).
    simpl. auto.
  - split; [reflexivity|].
    apply (run_check_generationsUsed s user anonymousId clientIP (today e)).
  - auto.
  - split; [reflexivity|].
    apply (run_record_currentUsage s user anonymousId clientIP (today e)).
  - exists (trace (record_currentUsage user anonymousId clientIP (today e)) s),
      (usage_upsert user anonymousId clientIP (today e) sanitized currentUsage),
      (log_entry user anonymousId clientIP sanitized (errorMessage r)
         currentUsage).
    repeat split.
    + apply (run_record_currentUsage s user anonymousId clientIP (today e)).
    + unfold usage_upsert. destruct user; reflexivity.
Qed.

(** What a check reports for a usage and a cap. *)
Lemma check_fields (used cap : Z) :
  0 < cap ->
  0 <= Z.max 0 (cap - used)
  /\ (used <? cap) = (0 <? Z.max 0 (cap - used))
  /\ ((used <? cap) = true -> used + Z.max 0 (cap - used) = cap).
Proof.
  intros Hcap. destruct (used <? cap) eqn:E.
  - apply Z.ltb_lt in E. split; [lia|]. split; [|lia].
    symmetry. apply Z.ltb_lt. lia.
  - apply Z.ltb_ge in E. split; [lia|]. split; [|discriminate].
    symmetry. apply Z.ltb_ge. lia.
Qed.

(** X2. The fields of every answer agree with each other and with the cap
    of the caller (10 when authenticated, 5 otherwise): a check reports
    [0 <= remaining], [canGenerate] exactly when something remains,
    and then [used + remaining = cap]; a refusal reports
    [canGenerate = false], nothing remaining and a usage at or above the
    cap; an accepted record reports [used + remaining = cap] with
    [remaining >= 0]; an error is a 400 or a 500; and no exception escapes
    the handler. *)
Theorem answers_are_consistent (e : Env) (req : Request) (s : Store) :
  match fst (respond e req s) with
  | Thrown _ => False
  | Ok response =>
      let cap := if isSome (authenticate e req) then 10 else 5 in
      match body response with
      | Text _ => status response = 200
      | ErrorBody _ => status response = 400 \/ status response = 500
      | RateLimitResponse canGenerate used remaining isAuthenticated limitType =>
          status response = 200
          /\ 0 <= remaining
          /\ canGenerate = (0 <? remaining)
          /\ (canGenerate = true -> used + remaining = cap)
          /\ isAuthenticated = isSome (authenticate e req)
          /\ limitType = (if isAuthenticated then authenticated else anonymous)
      | LimitExceeded _ canGenerate used remaining =>
          status response = 429
          /\ canGenerate = false /\ remaining = 0 /\ cap <= used
      | Recorded success used remaining =>
          status response = 200
          /\ success = true /\ 0 <= remaining /\ used + remaining = cap
      end
  end.
Proof.
  destruct (serve_view e req s) as
    [Hm|response Hm Hrej|clientIP anonymousId r Hres Hact user used cap
    |clientIP anonymousId r Hres Hact Hw
    |clientIP anonymousId r Hres Hact Hw user currentUsage Hcap
    |clientIP anonymousId sanitized r Hres Hact Hw Hfp user currentUsage Hcap];
    cbn [fst].
  - reflexivity.
  - destruct (rejection_is_error _ _ Hrej) as (code & msg & -> & Hcode).
    exact Hcode.
  - subst cap. fold user. unfold maxGenerations, limitTypeOf,
      AUTHENTICATED_DAILY_LIMIT, ANONYMOUS_DAILY_LIMIT. cbn [body status ok].
    destruct (isSome user).
    + destruct (check_fields used 10) as (H1 & H2 & H3); [lia|].
      repeat split; try assumption; lia.
    + destruct (check_fields used 5) as (H1 & H2 & H3); [lia|].
      repeat split; try assumption; lia.
  - simpl. auto.
  - fold user. unfold maxGenerations, AUTHENTICATED_DAILY_LIMIT,
      ANONYMOUS_DAILY_LIMIT in *. cbn [body status].
    destruct (isSome user); repeat split; assumption.
  - fold user. unfold maxGenerations, AUTHENTICATED_DAILY_LIMIT,
      ANONYMOUS_DAILY_LIMIT in *. cbn [body status ok].
    destruct (isSome user); repeat split; lia.
Qed.

(** What a request resolves to is determined by the request, and a
    resolved request is not one that validation stops. *)
Lemma resolved_unique (req : Request) (clientIP clientIP' a a' : jsstring)
  (r r' : RateLimitRequest) :
  resolved req clientIP a r -> resolved req clientIP' a' r' ->
  clientIP = clientIP' /\ a = a' /\ r = r'.
Proof.
  intros (_ & Hv & Hj & Hid) (_ & Hv' & Hj' & Hid').
  assert (clientIP = clientIP') as <- by congruence.
  assert (r = r') as <- by congruence.
  repeat split. congruence.
Qed.

Lemma resolved_not_rejected (req : Request) (clientIP a : jsstring)
  (r : RateLimitRequest) :
  resolved req clientIP a r ->
  Js.eqb (method req) (Js.lit "OPTIONS") = false /\ rejection req = None.
Proof.
  intros (Hm & Hv & Hj & Hid). split; [assumption|].
  unfold rejection. rewrite Hv, Hj. simpl.
  unfold createSecureAnonymousId in Hid.
  destruct (sanitizeFingerprint (fingerprint r)) as [x|] eqn:E;
    [|discriminate].
  destruct (sanitizeFingerprint_Ok _ E) as (f & Hf & Hne & _).
  rewrite Hf. destruct f; [congruence|reflexivity].
Qed.

(** X3. The two usage tables are kept apart: an anonymous request leaves
    [user_usage] as it was and an authenticated request leaves
    [anonymous_usage] as it was; and the answer to an authenticated request
    depends on [user_usage] only, so nothing an anonymous caller has used
    carries over when the caller signs in. *)
Theorem tables_are_kept_apart (e : Env) (req : Request) (s s' : Store)
  (user_id : jsstring) :
  (authenticate e req = None ->
   user_usage (snd (respond e req s)) = user_usage s)
  /\ (authenticate e req = Some user_id ->
      anonymous_usage (snd (respond e req s)) = anonymous_usage s)
  /\ (authenticate e req = Some user_id ->
      user_usage s = user_usage s' ->
      fst (respond e req s) = fst (respond e req s')).
Proof.
  split; [|split].
  - intros Hu.
    destruct (serve_view e req s) as
      [Hm|response Hm Hrej|clientIP anonymousId r Hres Hact user used cap
      |clientIP anonymousId r Hres Hact Hw
      |clientIP anonymousId r Hres Hact Hw user currentUsage Hcap
      |clientIP anonymousId sanitized r Hres Hact Hw Hfp user currentUsage Hcap];
      try reflexivity.
    subst user. rewrite Hu. reflexivity.
  - intros Hu.
    destruct (serve_view e req s) as
      [Hm|response Hm Hrej|clientIP anonymousId r Hres Hact user used cap
      |clientIP anonymousId r Hres Hact Hw
      |clientIP anonymousId r Hres Hact Hw user currentUsage Hcap
      |clientIP anonymousId sanitized r Hres Hact Hw Hfp user currentUsage Hcap];
      try reflexivity.
    subst user. rewrite Hu. reflexivity.
  - intros Hu Heq.
    assert (forall d, own_user_usage s user_id d = own_user_usage s' user_id d)
      as Hown by (intros d; unfold own_user_usage; now rewrite Heq).
    destruct (serve_view e req s) as
      [Hm|response Hm Hrej|clientIP anonymousId r Hres Hact user used cap
      |clientIP anonymousId r Hres Hact Hw
      |clientIP anonymousId r Hres Hact Hw user currentUsage Hcap
      |clientIP anonymousId sanitized r Hres Hact Hw Hfp user currentUsage Hcap];
      destruct (serve_view e req s') as
      [Hm'|response' Hm' Hrej'|clientIP' anonymousId' r' Hres' Hact' user' used' cap'
      |clientIP' anonymousId' r' Hres' Hact' Hw'
      |clientIP' anonymousId' r' Hres' Hact' Hw' user' currentUsage' Hcap'
      |clientIP' anonymousId' sanitized' r' Hres' Hact' Hw' Hfp' user' currentUsage' Hcap'];
      cbn [fst]; try reflexivity; try congruence;
      try (destruct (resolved_not_rejected _ _ _ _ Hres); congruence);
      try (destruct (resolved_not_rejected _ _ _ _ Hres'); congruence);
      destruct (resolved_unique _ _ _ _ _ _ _ Hres Hres') as (<- & <- & <-);
      try congruence;
      repeat match goal with x := _ |- _ => subst x end;
      rewrite Hu in *; cbn [used_at_check used_at_record isSome] in *;
      rewrite <- ?Hown in *; try reflexivity; lia.
Qed.

(* ================================================================= *)
(** ** Well-formed stores stay well-formed *)

Lemma fold_left_add (l : list Z) (a : Z) : fold_left Z.add l a = a + sum l.
Proof.
  unfold sum. revert a. induction l as [|x l IH]; intros a; simpl; [lia|].
  rewrite (IH (a + x)), (IH x). lia.
Qed.

Lemma sum_cons (x : Z) (l : list Z) : sum (x :: l) = x + sum l.
Proof. unfold sum at 1. simpl. rewrite fold_left_add. lia. Qed.

Lemma sum_app (l l' : list Z) : sum (l ++ l') = sum l + sum l'.
Proof.
  induction l as [|x l IH]; simpl; [reflexivity|].
  rewrite !sum_cons, IH. lia.
Qed.

Lemma sum_nonneg (l : list Z) : Forall (fun x => 0 <= x) l -> 0 <= sum l.
Proof.
  induction 1 as [|x l Hx Hl IH]; [reflexivity|]. rewrite sum_cons. lia.
Qed.

Lemma single_In {X : Type} (l : list X) (x : X) : single l = Some x -> In x l.
Proof. destruct l as [|y [|z l]]; simpl; intros [= <-]. now left. Qed.

Section Nonneg.

Variable s : Store.
Hypothesis Hs : nonneg_counts s = true.

Lemma nonneg_user_rows (r : UserUsageRow) :
  In r (user_usage s) -> 0 <= uu_generations_used r.
Proof.
  unfold nonneg_counts in Hs. apply andb_true_iff in Hs as [Hu _].
  rewrite forallb_forall in Hu. intros Hr. apply Hu in Hr.
  now apply Z.leb_le.
Qed.

Lemma nonneg_anonymous_rows (r : AnonymousUsageRow) :
  In r (anonymous_usage s) -> 0 <= au_generations_used r.
Proof.
  unfold nonneg_counts in Hs. apply andb_true_iff in Hs as [_ Ha].
  rewrite forallb_forall in Ha. intros Hr. apply Ha in Hr.
  now apply Z.leb_le.
Qed.

Lemma own_user_usage_nonneg (user_id date : jsstring) :
  0 <= own_user_usage s user_id date.
Proof.
  unfold own_user_usage.
  destruct (single (filter (user_key user_id date) (user_usage s)))
    as [r|] eqn:E; simpl; [|lia].
  apply single_In, filter_In in E as [Hr _]. now apply nonneg_user_rows.
Qed.

Lemma own_anonymous_usage_nonneg (anonymous_id date : jsstring) :
  0 <= own_anonymous_usage s anonymous_id date.
Proof.
  unfold own_anonymous_usage.
  destruct (single (filter (anonymous_key anonymous_id date) (anonymous_usage s)))
    as [r|] eqn:E; simpl; [|lia].
  apply single_In, filter_In in E as [Hr _]. now apply nonneg_anonymous_rows.
Qed.

Lemma ip_usage_nonneg (ip_address date : jsstring) (neq : option jsstring) :
  0 <= ip_usage s ip_address date neq.
Proof.
  unfold ip_usage. apply sum_nonneg, Forall_forall. intros x Hx.
  apply in_map_iff in Hx as (r & <- & Hr). apply filter_In in Hr as [Hr _].
  now apply nonneg_anonymous_rows.
Qed.

Lemma used_at_record_nonneg (user : option jsstring)
  (anonymousId clientIP date : jsstring) :
  0 <= used_at_record s user anonymousId clientIP date.
Proof.
  destruct user as [user_id|]; simpl.
  - apply own_user_usage_nonneg.
  - pose proof (own_anonymous_usage_nonneg anonymousId date). lia.
Qed.

End Nonneg.

(** Rows of another key are not touched by an upsert. *)
Lemma filter_upsert_other {X : Type} (conflict other : X -> bool) (row : X)
  (rows : list X) :
  other row = false ->
  (forall r, conflict r = true -> other r = false) ->
  filter other (upsert conflict row rows) = filter other rows.
Proof.
  intros Hrow Hdisjoint. unfold upsert. destruct (existsb conflict rows).
  - induction rows as [|x rows IH]; simpl; [reflexivity|].
    destruct (conflict x) eqn:Cx.
    + rewrite Hrow, (Hdisjoint x Cx). exact IH.
    + destruct (other x); now rewrite IH.
  - rewrite filter_app. simpl. rewrite Hrow. apply app_nil_r.
Qed.

Lemma user_key_same (user_id date : jsstring) (r : UserUsageRow) :
  user_key user_id date r = true <-> uu_user_id r = user_id /\ uu_date r = date.
Proof.
  unfold user_key. now rewrite andb_true_iff, !JsFacts.eqb_eq.
Qed.

Lemma anonymous_key_same (anonymous_id date : jsstring) (r : AnonymousUsageRow) :
  anonymous_key anonymous_id date r = true
  <-> au_anonymous_id r = anonymous_id /\ au_date r = date.
Proof.
  unfold anonymous_key. now rewrite andb_true_iff, !JsFacts.eqb_eq.
Qed.

Lemma upsert_keeps_one_user_row (rows : list UserUsageRow)
  (row : UserUsageRow) (user_id date : jsstring) :
  (forall u d, (List.length (filter (user_key u d) rows) <= 1)%nat) ->
  (List.length
     (filter (user_key user_id date)
        (upsert (user_key (uu_user_id row) (uu_date row)) row rows)) <= 1)%nat.
Proof.
  intros Hone.
  destruct (user_key user_id date row) eqn:Hk.
  - apply user_key_same in Hk as [<- <-].
    rewrite filter_upsert; [simpl; lia| |apply Hone].
    now apply user_key_same.
  - rewrite filter_upsert_other; [apply Hone|exact Hk|].
    intros r Hr. apply user_key_same in Hr as [Hu Hd].
    unfold user_key in *. now rewrite Hu, Hd.
Qed.

Lemma upsert_keeps_one_anonymous_row (rows : list AnonymousUsageRow)
  (row : AnonymousUsageRow) (anonymous_id date : jsstring) :
  (forall a d, (List.length (filter (anonymous_key a d) rows) <= 1)%nat) ->
  (List.length
     (filter (anonymous_key anonymous_id date)
        (upsert (anonymous_key (au_anonymous_id row) (au_date row)) row rows))
   <= 1)%nat.
Proof.
  intros Hone.
  destruct (anonymous_key anonymous_id date row) eqn:Hk.
  - apply anonymous_key_same in Hk as [<- <-].
    rewrite filter_upsert; [simpl; lia| |apply Hone].
    now apply anonymous_key_same.
  - rewrite filter_upsert_other; [apply Hone|exact Hk|].
    intros r Hr. apply anonymous_key_same in Hr as [Ha Hd].
    unfold anonymous_key in *. now rewrite Ha, Hd.
Qed.

Lemma accepted_store_ok (s : Store) (user : option jsstring)
  (anonymousId clientIP date sanitized : jsstring) (msg : option jsstring) :
  store_ok s ->
  store_ok (accepted_store s user anonymousId clientIP date sanitized msg
              (used_at_record s user anonymousId clientIP date)).
Proof.
  intros (Hu & Ha & Hn).
  pose proof (used_at_record_nonneg s Hn user anonymousId clientIP date) as Hcur.
  unfold store_ok, one_user_row, one_anonymous_row, nonneg_counts in *.
  apply andb_true_iff in Hn as [Hnu Hna].
  unfold accepted_store, usage_upsert.
  destruct user as [user_id|]; cbn [perform snd user_usage anonymous_usage
    generation_logs uu_user_id uu_date au_anonymous_id au_date].
  - split; [|split];
      [intros u d;
       exact (upsert_keeps_one_user_row _ (Build_UserUsageRow user_id date _)
                u d Hu)
      |exact Ha|].
    rewrite Hna, forallb_upsert; [reflexivity| |exact Hnu].
    apply Z.leb_le. cbn [uu_generations_used au_generations_used]. lia.
  - split; [|split];
      [exact Hu
      |intros a d;
       exact (upsert_keeps_one_anonymous_row _
                (Build_AnonymousUsageRow anonymousId clientIP sanitized date _)
                a d Ha)|].
    rewrite Hnu, forallb_upsert; [reflexivity| |exact Hna].
    apply Z.leb_le. cbn [uu_generations_used au_generations_used]. lia.
Qed.

Lemma respond_store_ok (e : Env) (req : Request) (s : Store) :
  store_ok s -> store_ok (snd (respond e req s)).
Proof.
  intros Hs.
  destruct (serve_view e req s) as
    [Hm|response Hm Hrej|clientIP anonymousId r Hres Hact user used cap
    |clientIP anonymousId r Hres Hact Hw
    |clientIP anonymousId r Hres Hact Hw user currentUsage Hcap
    |clientIP anonymousId sanitized r Hres Hact Hw Hfp user currentUsage Hcap];
    cbn [snd]; try assumption.
  now apply accepted_store_ok.
Qed.

Lemma serve_each_store (reqs : list (Env * Request)) (s : Store) :
  snd (serve_each reqs s) = serve_all reqs s.
Proof.
  revert s. induction reqs as [|[e req] reqs IH]; intros s; simpl;
    [reflexivity|].
  destruct (respond e req s) as [answer s'] eqn:E.
  specialize (IH s'). destruct (serve_each reqs s') as [answers s''].
  simpl in *. exact IH.
Qed.

(** X4. The handler respects the uniqueness constraints of its tables and
    writes no negative count: served one at a time from a store with at most
    one row for every (user, day) and every (anonymous id, day) and no
    negative count, as the empty store is, requests leave such a store. *)
Theorem store_stays_well_formed (reqs : list (Env * Request)) (s : Store) :
  store_ok s -> store_ok (serve_all reqs s).
Proof.
  revert s. induction reqs as [|[e req] reqs IH]; intros s Hs; simpl.
  - assumption.
  - apply IH. now apply respond_store_ok.
Qed.

(** The empty store is well-formed. *)
Lemma empty_store_ok : store_ok empty_store.
Proof.
  unfold store_ok, one_user_row, one_anonymous_row. simpl.
  repeat split; intros; apply Nat.le_0_1.
Defined.

Lemma store_stays_well_formed_witness :
  store_ok (serve_all [(env, recordA); (env, recordU); (env, recordB)]
              empty_store).
Proof. apply store_stays_well_formed. exact empty_store_ok. Defined.

(* ================================================================= *)
(** ** A check after a record *)

Lemma accepted_own_user_usage (s : Store)
  (user_id anonymousId clientIP date sanitized : jsstring)
  (msg : option jsstring) (n : Z) :
  one_user_row s user_id date ->
  own_user_usage
    (accepted_store s (Some user_id) anonymousId clientIP date sanitized msg n)
    user_id date = n + 1.
Proof.
  intros Hone. unfold own_user_usage, accepted_store, usage_upsert.
  cbn [perform snd user_usage uu_user_id uu_date].
  rewrite filter_upsert; [reflexivity| |exact Hone].
  apply user_key_same. split; reflexivity.
Qed.

Lemma accepted_own_anonymous_usage (s : Store)
  (anonymousId clientIP date sanitized : jsstring)
  (msg : option jsstring) (n : Z) :
  one_anonymous_row s anonymousId date ->
  own_anonymous_usage
    (accepted_store s None anonymousId clientIP date sanitized msg n)
    anonymousId date = n + 1.
Proof.
  intros Hone. unfold own_anonymous_usage, accepted_store, usage_upsert.
  cbn [perform snd anonymous_usage au_anonymous_id au_date].
  rewrite filter_upsert; [reflexivity| |exact Hone].
  apply anonymous_key_same. split; reflexivity.
Qed.

(** The rows of the other fingerprints of the address are as they were. *)
Lemma accepted_other_ip_usage (s : Store)
  (anonymousId clientIP date sanitized : jsstring)
  (msg : option jsstring) (n : Z) :
  ip_usage (accepted_store s None anonymousId clientIP date sanitized msg n)
    clientIP date (Some anonymousId)
  = ip_usage s clientIP date (Some anonymousId).
Proof.
  unfold ip_usage, accepted_store, usage_upsert.
  cbn [perform snd anonymous_usage au_anonymous_id au_date].
  rewrite filter_upsert_other; [reflexivity| |].
  - unfold ip_key. cbn. rewrite (JsFacts.eqb_refl anonymousId).
    now rewrite andb_false_r.
  - intros r Hr. apply anonymous_key_same in Hr as [Ha _].
    unfold ip_key. rewrite Ha, JsFacts.eqb_refl. now rewrite andb_false_r.
Qed.

(** A narrower selection of rows without negative counts has a smaller
    total. *)
Lemma sum_filter_le {X : Type} (f : X -> Z) (p q : X -> bool) (rows : list X) :
  (forall x, In x rows -> 0 <= f x) ->
  (forall x, p x = true -> q x = true) ->
  sum (map f (filter p rows)) <= sum (map f (filter q rows)).
Proof.
  intros Hf Hpq. induction rows as [|x rows IH]; simpl; [lia|].
  assert (0 <= f x) as Hx by (apply Hf; now left).
  assert (forall y, In y rows -> 0 <= f y) as Hrest
    by (intros y Hy; apply Hf; now right).
  specialize (IH Hrest). specialize (Hpq x).
  destruct (p x); [rewrite Hpq by reflexivity|destruct (q x)]; simpl;
    rewrite ?sum_cons; lia.
Qed.

(** Without negative counts the other fingerprints of an address have used
    no more than all its fingerprints. *)
Lemma other_ip_usage_le (s : Store) (clientIP date anonymousId : jsstring) :
  nonneg_counts s = true ->
  ip_usage s clientIP date (Some anonymousId) <= ip_usage s clientIP date None.
Proof.
  intros Hs. unfold ip_usage. apply sum_filter_le.
  - apply (nonneg_anonymous_rows s Hs).
  - intros r. unfold ip_key. rewrite !andb_true_iff. tauto.
Qed.

(** X5. A check that follows an accepted record agrees with it. On a
    well-formed store, when a record is answered with [used] and
    [remaining], a check by the same caller on the same day, served next,
    reports the same [used] and [remaining], and [canGenerate] exactly when
    something remains. *)
Theorem check_after_record_agrees (e : Env) (record_req check_req : Request)
  (s : Store) (clientIP anonymousId : jsstring) (r r' : RateLimitRequest)
  (used remaining : Z) :
  store_ok s ->
  resolved record_req clientIP anonymousId r ->
  resolved check_req clientIP anonymousId r' ->
  action r' = Js.lit "check" ->
  authenticate e check_req = authenticate e record_req ->
  fst (respond e record_req s) = Ok (ok (Recorded true used remaining)) ->
  let s' := snd (respond e record_req s) in
  let isAuthenticated := isSome (authenticate e check_req) in
  respond e check_req s' =
    (Ok (ok (RateLimitResponse (0 <? remaining) used remaining isAuthenticated
               (if isAuthenticated then authenticated else anonymous))), s').
Proof.
  intros (Hu & Ha & Hn) Hres Hres' Hact Hauth Hanswer s' isAuthenticated.
  subst s' isAuthenticated.
  destruct (serve_view e record_req s) as
    [Hm|response Hm Hrej|clientIP0 anonymousId0 r0 Hres0 Hact0 user used0 cap
    |clientIP0 anonymousId0 r0 Hres0 Hact0 Hw
    |clientIP0 anonymousId0 r0 Hres0 Hact0 Hw user currentUsage Hcap
    |clientIP0 anonymousId0 sanitized r0 Hres0 Hact0 Hw Hfp user currentUsage Hcap];
    cbn [fst snd] in *; try discriminate.
  - destruct (rejection_is_error _ _ Hrej) as (code & msg & -> & _).
    discriminate.
  - destruct (resolved_unique _ _ _ _ _ _ _ Hres Hres0) as (<- & <- & <-).
    injection Hanswer as <- <-.
    unfold respond.
    rewrite (serve_resolved e Hres'), Hact, JsFacts.eqb_refl, run_try_catch.
    destruct (run_check
                (accepted_store s user anonymousId clientIP (today e) sanitized
                   (errorMessage r) currentUsage)
                (authenticate e check_req) anonymousId clientIP (today e))
      as [-> _].
    rewrite Hauth. fold user.
    assert (used_at_check
              (accepted_store s user anonymousId clientIP (today e) sanitized
                 (errorMessage r) currentUsage)
              user anonymousId clientIP (today e) = currentUsage + 1) as ->.
    { destruct user as [user_id|] eqn:Euser; cbn [used_at_check].
      - apply accepted_own_user_usage, Hu.
      - rewrite accepted_own_anonymous_usage by apply Ha.
        rewrite accepted_other_ip_usage.
        pose proof (other_ip_usage_le s clientIP (today e) anonymousId Hn).
        assert (ip_usage s clientIP (today e) None <= currentUsage)
          by (unfold currentUsage; cbn [used_at_record]; lia).
        clearbody currentUsage. lia. }
    destruct (check_fields (currentUsage + 1) (maxGenerations (isSome user)))
      as (_ & Hcg & _).
    { unfold maxGenerations, AUTHENTICATED_DAILY_LIMIT, ANONYMOUS_DAILY_LIMIT.
      destruct (isSome user); lia. }
    rewrite Hcg.
    replace (Z.max 0 (maxGenerations (isSome user) - (currentUsage + 1)))
      with (maxGenerations (isSome user) - (currentUsage + 1)) by lia.
    unfold limitTypeOf. reflexivity.
Qed.

Lemma recordA_resolved : resolved recordA ip idA
  {| action := Js.lit "record"; fingerprint := Some fpA;
     success := Some true; errorMessage := None |}.
Proof. repeat split; vm_compute; reflexivity. Defined.

Lemma check_after_record_agrees_witness :
  respond env checkA (snd (respond env recordA empty_store)) =
    (Ok (ok (RateLimitResponse true 1 4 false anonymous)),
     snd (respond env recordA empty_store)).
Proof.
  exact (check_after_record_agrees env recordA checkA empty_store ip idA _ _
           1 4 empty_store_ok recordA_resolved checkA_resolved eq_refl eq_refl
           eq_refl).
Defined.

(* ================================================================= *)
(** ** How many records are accepted *)

Lemma upsert_In {X : Type} (conflict : X -> bool) (row : X) (rows : list X) :
  In row (upsert conflict row rows).
Proof.
  unfold upsert. destruct (existsb conflict rows) eqn:E.
  - apply existsb_exists in E as (x & Hx & Cx).
    apply in_map_iff. exists x. now rewrite Cx.
  - apply in_or_app. right. now left.
Qed.

Lemma sum_ge_In (l : list Z) (x : Z) :
  (forall y, In y l -> 0 <= y) -> In x l -> x <= sum l.
Proof.
  induction l as [|y l IH]; intros Hl Hx; [contradiction|].
  rewrite sum_cons.
  assert (0 <= y) by (apply Hl; now left).
  assert (0 <= sum l)
    by (apply sum_nonneg, Forall_forall; intros z Hz; apply Hl; now right).
  destruct Hx as [->|Hx]; [lia|].
  assert (x <= sum l) by (apply IH; [intros z Hz; apply Hl; now right|exact Hx]).
  lia.
Qed.

(** After the record of an anonymous caller is accepted, the rows of its
    address add up to more than the usage the record was checked with. *)
Lemma accepted_ip_usage (s : Store)
  (anonymousId clientIP date sanitized : jsstring)
  (msg : option jsstring) (n : Z) :
  nonneg_counts s = true -> 0 <= n ->
  n + 1 <= ip_usage
             (accepted_store s None anonymousId clientIP date sanitized msg n)
             clientIP date None.
Proof.
  intros Hs Hn. unfold ip_usage, accepted_store, usage_upsert.
  cbn [perform snd anonymous_usage au_anonymous_id au_date].
  set (row := {| au_anonymous_id := anonymousId; au_ip_address := clientIP;
                 au_fingerprint := sanitized; au_date := date;
                 au_generations_used := n + 1 |}).
  apply sum_ge_In.
  - intros y Hy. apply in_map_iff in Hy as (x & <- & Hx).
    apply filter_In in Hx as [Hx _].
    unfold upsert in Hx. destruct (existsb _ _).
    + apply in_map_iff in Hx as (x0 & Hx0 & Hin).
      destruct (anonymous_key anonymousId date x0); subst x;
        [simpl; lia|now apply (nonneg_anonymous_rows s Hs)].
    + apply in_app_or in Hx as [Hx|[<-|[]]];
        [now apply (nonneg_anonymous_rows s Hs)|simpl; lia].
  - apply in_map_iff. exists row. split; [reflexivity|].
    apply filter_In. split; [apply upsert_In|].
    unfold ip_key. cbn. now rewrite !JsFacts.eqb_refl.
Qed.

(** One anonymous request of an address: when its record is accepted the
    address was below 5 and has gained at least one. *)
Lemma anonymous_step (e : Env) (req : Request) (s : Store) :
  store_ok s ->
  authenticate e req = None ->
  if is_recorded (fst (respond e req s))
  then ip_usage s (fst (validateRequest req)) (today e) None < 5
       /\ ip_usage s (fst (validateRequest req)) (today e) None + 1
          <= ip_usage (snd (respond e req s)) (fst (validateRequest req))
               (today e) None
  else snd (respond e req s) = s.
Proof.
  intros (_ & _ & Hn) Hauth.
  destruct (serve_view e req s) as
    [Hm|response Hm Hrej|clientIP anonymousId r Hres Hact user used cap
    |clientIP anonymousId r Hres Hact Hw
    |clientIP anonymousId r Hres Hact Hw user currentUsage Hcap
    |clientIP anonymousId sanitized r Hres Hact Hw Hfp user currentUsage Hcap];
    cbn [fst snd is_recorded ok body]; try reflexivity.
  - destruct (rejection_is_error _ _ Hrej) as (code & msg & -> & _).
    reflexivity.
  - destruct Hres as (_ & -> & _). cbn [fst].
    subst currentUsage user. rewrite Hauth in *.
    cbn [used_at_record isSome] in *.
    pose proof (own_anonymous_usage_nonneg s Hn anonymousId (today e)).
    pose proof (ip_usage_nonneg s Hn clientIP (today e) None).
    pose proof (accepted_ip_usage s anonymousId clientIP (today e) sanitized
                  (errorMessage r)
                  (Z.max (own_anonymous_usage s anonymousId (today e))
                     (ip_usage s clientIP (today e) None)) Hn) as Hafter.
    unfold maxGenerations, ANONYMOUS_DAILY_LIMIT in Hcap.
    specialize (Hafter ltac:(lia)). lia.
Qed.

(** X6. Changing the fingerprint does not buy generations. Served one at a
    time on one day, the anonymous requests of one IP address, whatever
    their fingerprints, get no more accepted records than the 5 of the cap
    less what the rows of the address already add up to. *)
Theorem anonymous_records_per_ip_bounded (e : Env) (reqs : list Request)
  (s : Store) (clientIP : jsstring) :
  store_ok s ->
  Forall (fun req => fst (validateRequest req) = clientIP
                     /\ authenticate e req = None) reqs ->
  Z.of_nat (count_recorded (fst (serve_each (map (pair e) reqs) s)))
  <= Z.max 0 (ANONYMOUS_DAILY_LIMIT - ip_usage s clientIP (today e) None).
Proof.
  intros Hs Hreqs. revert s Hs.
  induction Hreqs as [|req reqs [Hip Hauth] _ IH]; intros s Hs.
  - simpl. lia.
  - cbn [map serve_each].
    pose proof (anonymous_step e req s Hs Hauth) as Hstep.
    pose proof (respond_store_ok e req s Hs) as Hs'.
    destruct (respond e req s) as [answer s'] eqn:E. cbn [fst snd] in *.
    specialize (IH s' Hs').
    destruct (serve_each (map (pair e) reqs) s') as [answers s''].
    cbn [fst] in *. unfold count_recorded in *. cbn [filter].
    rewrite Hip in Hstep. unfold ANONYMOUS_DAILY_LIMIT in *.
    destruct (is_recorded answer).
    + cbn [List.length]. lia.
    + subst s'. exact IH.
Qed.

(** One request and the row of a user: the count of the day goes up by one
    when the request is an accepted record of this user on this day, and
    stays as it is otherwise. *)
Lemma user_step (e : Env) (req : Request) (s : Store)
  (user_id date : jsstring) :
  store_ok s ->
  own_user_usage (snd (respond e req s)) user_id date =
  own_user_usage s user_id date
  + (if is_recorded (fst (respond e req s))
        && match authenticate e req with
           | Some u => Js.eqb u user_id
           | None => false
           end
        && Js.eqb (today e) date
     then 1 else 0)
  /\ (is_recorded (fst (respond e req s))
      && match authenticate e req with
         | Some u => Js.eqb u user_id
         | None => false
         end
      && Js.eqb (today e) date = true ->
      own_user_usage s user_id date < AUTHENTICATED_DAILY_LIMIT).
Proof.
  intros (Hu & _ & _).
  destruct (serve_view e req s) as
    [Hm|response Hm Hrej|clientIP anonymousId r Hres Hact user used cap
    |clientIP anonymousId r Hres Hact Hw
    |clientIP anonymousId r Hres Hact Hw user currentUsage Hcap
    |clientIP anonymousId sanitized r Hres Hact Hw Hfp user currentUsage Hcap];
    cbn [fst snd is_recorded ok error_response body andb];
    try (split; [lia|discriminate]).
  - destruct (rejection_is_error _ _ Hrej) as (code & msg & -> & _).
    cbn. split; [lia|discriminate].
  - fold user. destruct user as [u|] eqn:Euser.
    + destruct (Js.eqb u user_id && Js.eqb (today e) date) eqn:Hsame.
      * apply andb_true_iff in Hsame as [Hsu Hsd].
        apply JsFacts.eqb_eq in Hsu, Hsd. subst u date.
        split; [|intros _; exact Hcap].
        now rewrite accepted_own_user_usage by apply Hu.
      * assert (own_user_usage
                  (accepted_store s (Some u) anonymousId clientIP (today e)
                     sanitized (errorMessage r) currentUsage) user_id date
                = own_user_usage s user_id date) as ->.
        { unfold own_user_usage, accepted_store, usage_upsert.
          cbn [perform snd user_usage uu_user_id uu_date].
          rewrite filter_upsert_other; [reflexivity| |].
          - unfold user_key. cbn. exact Hsame.
          - intros x Hx. apply user_key_same in Hx as [Hxu Hxd].
            unfold user_key. rewrite Hxu, Hxd. exact Hsame. }
        destruct (Js.eqb u user_id), (Js.eqb (today e) date);
          try discriminate; cbn [andb]; split; try lia; discriminate.
    + cbn [andb]. split; [|discriminate].
      unfold own_user_usage, accepted_store, usage_upsert.
      cbn [perform snd user_usage]. lia.
Qed.

(** X7. No user gets more than the cap, whoever else calls. Served one at
    a time from a well-formed store, any requests of any callers on any
    days add to the count of one user on one day exactly the accepted
    records of that user on that day, and these are no more than the 10 of
    the cap less what the user's row of that day already holds, none when
    it holds 10 or more. *)
Theorem user_records_per_day_bounded (reqs : list (Env * Request))
  (s : Store) (user_id date : jsstring) :
  store_ok s ->
  own_user_usage s user_id date
  + Z.of_nat (recorded_by user_id date reqs s)
  = own_user_usage (serve_all reqs s) user_id date
  /\ Z.of_nat (recorded_by user_id date reqs s)
     <= Z.max 0 (AUTHENTICATED_DAILY_LIMIT - own_user_usage s user_id date)
  /\ own_user_usage (serve_all reqs s) user_id date
     <= Z.max AUTHENTICATED_DAILY_LIMIT (own_user_usage s user_id date).
Proof.
  revert s. induction reqs as [|[e req] reqs IH]; intros s Hs.
  - simpl. repeat split; lia.
  - cbn [recorded_by serve_all fold_left fst snd].
    fold (serve_all reqs (snd (respond e req s))).
    destruct (user_step e req s user_id date Hs) as [Hstep Hbelow].
    pose proof (respond_store_ok e req s Hs) as Hs'.
    destruct (respond e req s) as [answer s'] eqn:E. cbn [fst snd] in *.
    destruct (IH s' Hs') as (IH1 & IH2 & IH3).
    destruct (is_recorded answer
              && match authenticate e req with
                 | Some u => Js.eqb u user_id
                 | None => false
                 end
              && Js.eqb (today e) date) eqn:Hmine.
    + specialize (Hbelow eq_refl). repeat split; lia.
    + repeat split; lia.
Qed.

Lemma anonymous_records_per_ip_bounded_witness :
  Z.of_nat
    (count_recorded
       (fst (serve_each
               (map (pair env)
                  [recordA; recordB; recordA; recordB; recordA; recordB])
               empty_store)))
  <= Z.max 0 (ANONYMOUS_DAILY_LIMIT - ip_usage empty_store ip (today env) None).
Proof.
  apply anonymous_records_per_ip_bounded.
  - exact empty_store_ok.
  - repeat constructor.
Defined.

Lemma user_records_per_day_bounded_witness :
  own_user_usage empty_store (Js.lit "user-1") date
  + Z.of_nat
      (recorded_by (Js.lit "user-1") date
         [(env, recordU); (env, recordA); (env, recordU)] empty_store)
  = own_user_usage
      (serve_all [(env, recordU); (env, recordA); (env, recordU)] empty_store)
      (Js.lit "user-1") date
  /\ Z.of_nat
       (recorded_by (Js.lit "user-1") date
          [(env, recordU); (env, recordA); (env, recordU)] empty_store)
     <= Z.max 0 (AUTHENTICATED_DAILY_LIMIT
                 - own_user_usage empty_store (Js.lit "user-1") date)
  /\ own_user_usage
       (serve_all [(env, recordU); (env, recordA); (env, recordU)] empty_store)
       (Js.lit "user-1") date
     <= Z.max AUTHENTICATED_DAILY_LIMIT
          (own_user_usage empty_store (Js.lit "user-1") date).
Proof.
  exact (user_records_per_day_bounded
           [(env, recordU); (env, recordA); (env, recordU)] empty_store
           (Js.lit "user-1") date empty_store_ok).
Defined.

(* ================================================================= *)
(** ** The audit log *)

Lemma count_recorded_cons (e : Env) (req : Request)
  (reqs : list (Env * Request)) (s : Store) :
  count_recorded (fst (serve_each ((e, req) :: reqs) s)) =
  ((if is_recorded (fst (respond e req s)) then 1 else 0)
   + count_recorded (fst (serve_each reqs (snd (respond e req s)))))%nat.
Proof.
  cbn [serve_each]. destruct (respond e req s) as [answer s']. cbn [fst snd].
  destruct (serve_each reqs s') as [answers s'']. cbn [fst snd].
  unfold count_recorded. cbn [filter]. destruct (is_recorded answer); reflexivity.
Qed.

Lemma serve_all_log_rows (reqs : list (Env * Request)) (s : Store) :
  exists added,
    generation_logs (serve_all reqs s) = generation_logs s ++ added
    /\ List.length added = count_recorded (fst (serve_each reqs s))
    /\ forallb log_row_ok added = true.
Proof.
  revert s. induction reqs as [|[e req] reqs IH]; intros s.
  - exists []. simpl. now rewrite app_nil_r.
  - rewrite count_recorded_cons. cbn [serve_all fold_left fst snd].
    fold (serve_all reqs (snd (respond e req s))).
    destruct (IH (snd (respond e req s))) as (added & Hlogs & Hlen & Hok).
    rewrite Hlogs, <- Hlen. clear Hlogs Hlen IH.
    destruct (serve_view e req s) as
      [Hm|response Hm Hrej|clientIP anonymousId r Hres Hact user used cap
      |clientIP anonymousId r Hres Hact Hw
      |clientIP anonymousId r Hres Hact Hw user currentUsage Hcap
      |clientIP anonymousId sanitized r Hres Hact Hw Hfp user currentUsage Hcap];
      cbn [fst snd is_recorded ok error_response body];
      try (exists added; solve [auto]).
    + destruct (rejection_is_error _ _ Hrej) as (code & msg & -> & _).
      exists added. cbn. auto.
    + exists (log_entry user anonymousId clientIP sanitized (errorMessage r)
                currentUsage :: added).
      unfold accepted_store. cbn [perform snd generation_logs].
      rewrite <- app_assoc. cbn [app List.length forallb].
      split; [|split; [reflexivity|]].
      { unfold usage_upsert. now destruct user. }
      rewrite Hok, andb_true_r.
      unfold log_row_ok, log_entry, limitTypeOf.
      cbn [gl_success gl_generations_after gl_generations_before
           gl_limit_type gl_anonymous_id].
      rewrite Z.eqb_refl.
      unfold maxGenerations in Hcap. apply Z.ltb_lt in Hcap.
      destruct (isSome user); cbn; now rewrite Hcap.
Qed.

(** X8. The audit log holds accepted generations and nothing else. Served
    one at a time, requests add exactly one row to [generation_logs] for
    every accepted record and none for any other answer; and every row
    added is a success with [generations_after = generations_before + 1],
    [generations_before] below the cap of its limit type, and an anonymous
    id exactly when the limit type is anonymous. *)
Theorem log_holds_accepted_records_only (reqs : list (Env * Request))
  (s : Store) :
  exists added,
    generation_logs (serve_all reqs s) = generation_logs s ++ added
    /\ List.length added = count_recorded (fst (serve_each reqs s))
    /\ forallb log_row_ok added = true
    /\ Forall (fun l => gl_success l = true
                        /\ gl_generations_after l = gl_generations_before l + 1)
         added.
Proof.
  destruct (serve_all_log_rows reqs s) as (added & Hlogs & Hlen & Hok).
  exists added. repeat split; try assumption.
  apply Forall_forall. intros l Hl. rewrite forallb_forall in Hok.
  apply Hok in Hl. unfold log_row_ok in Hl.
  repeat (apply andb_true_iff in Hl as [Hl ?]).
  split; [assumption|]. now apply Z.eqb_eq.
Qed.

(* ================================================================= *)
(** ** The address and the credential of the caller *)

Lemma trimStart_head (s : jsstring) :
  Js.trimStart s = [] \/ not_white (first_char (Js.trimStart s)) = true.
Proof.
  induction s as [|c s IH]; simpl; [now left|].
  destruct (Js.isWhiteSpace c) eqn:E; [exact IH|].
  right. simpl. now rewrite E.
Qed.

Lemma trimStart_In (c : Js.char) (s : jsstring) :
  In c (Js.trimStart s) -> In c s.
Proof.
  induction s as [|x s IH]; simpl; [tauto|].
  destruct (Js.isWhiteSpace x); simpl; tauto.
Qed.

(** Stripping at the front keeps a last character that is no white space. *)
Lemma trimStart_keeps_last (s : jsstring) (c : Js.char) :
  Js.isWhiteSpace c = false ->
  exists s', Js.trimStart (s ++ [c]) = s' ++ [c].
Proof.
  intros Hc. induction s as [|x s IH]; simpl.
  - rewrite Hc. now exists [].
  - destruct (Js.isWhiteSpace x); [exact IH|]. now exists (x :: s).
Qed.

Lemma trim_shape (s : jsstring) :
  Js.trim s = []
  \/ (not_white (first_char (Js.trim s)) = true
      /\ not_white (last_char (Js.trim s)) = true).
Proof.
  unfold Js.trim, last_char. rewrite rev_involutive.
  destruct (Js.trimStart s) as [|c t] eqn:Et.
  - now left.
  - assert (Js.isWhiteSpace c = false) as Hc.
    { destruct (trimStart_head s) as [H|H]; rewrite Et in H;
        [discriminate|]. simpl in H. now destruct (Js.isWhiteSpace c). }
    simpl rev.
    destruct (trimStart_keeps_last (rev t) c Hc) as (t' & Ht'). rewrite Ht'.
    right. split.
    + rewrite rev_app_distr. simpl. now rewrite Hc.
    + destruct (trimStart_head (rev t ++ [c])) as [H|H]; rewrite Ht' in H;
        [now destruct t'|exact H].
Qed.

Lemma trim_In (c : Js.char) (s : jsstring) : In c (Js.trim s) -> In c s.
Proof.
  unfold Js.trim. intros H. apply in_rev, trimStart_In in H.
  apply in_rev in H. now apply trimStart_In.
Qed.

Lemma split_first_no_separator (c : Js.char) (s : jsstring) :
  ~ In c (Js.split_first c s).
Proof.
  induction s as [|x s IH]; simpl; [tauto|].
  destruct (N.eqb x c) eqn:E; simpl; [tauto|].
  apply N.eqb_neq in E. tauto.
Qed.

(** X9. The address [validateRequest] returns is never empty, so the
    request is valid exactly when the address is not the word "unknown";
    and when the first entry of [x-forwarded-for] is not blank, the address
    is that entry: it holds no comma and neither starts nor ends with white
    space, whatever the other two headers say. *)
Theorem client_ip_shape (req : Request) :
  let clientIP := fst (validateRequest req) in
  let forwarded :=
    option_map (fun h => Js.trim (Js.split_first 44%N h)) (x_forwarded_for req) in
  clientIP <> []
  /\ snd (validateRequest req) = negb (Js.eqb clientIP (Js.lit "unknown"))
  /\ (if Js.truthy forwarded
      then forwarded = Some clientIP
           /\ ~ In 44%N clientIP
           /\ not_white (first_char clientIP) = true
           /\ not_white (last_char clientIP) = true
      else clientIP = or_default
                        (Js.or_else (x_real_ip req) (cf_connecting_ip req))
                        (Js.lit "unknown")).
Proof.
  unfold validateRequest. cbn [fst snd].
  assert (forall a d, d <> [] -> or_default a d <> []) as Hne.
  { intros [[|c s]|] d Hd; simpl; congruence. }
  split; [apply Hne; discriminate|]. split.
  - specialize (Hne (Js.or_else
                       (Js.or_else
                          (option_map
                             (fun h => Js.trim (Js.split_first 44%N h))
                             (x_forwarded_for req)) (x_real_ip req))
                       (cf_connecting_ip req)) (Js.lit "unknown")
                  ltac:(discriminate)).
    destruct (or_default _ _) as [|c ip]; [congruence|].
    replace (Js.length (c :: ip) >? 0) with true; [now rewrite andb_true_r|].
    symmetry. unfold Js.length. simpl List.length. rewrite Z.gtb_ltb.
    apply Z.ltb_lt. lia.
  - destruct (x_forwarded_for req) as [h|]; cbn [option_map];
      [|reflexivity].
    destruct (Js.trim (Js.split_first 44%N h)) as [|c ip] eqn:Ef;
      [reflexivity|].
    cbn [Js.truthy Js.or_else or_default]. split; [reflexivity|]. split.
    + rewrite <- Ef. intros Hin. apply trim_In in Hin.
      now apply split_first_no_separator in Hin.
    + destruct (trim_shape (Js.split_first 44%N h)) as [H|H];
        rewrite Ef in H; [discriminate|exact H].
Qed.

Lemma startsWith_app (p t : jsstring) : Js.startsWith p (p ++ t) = true.
Proof.
  induction p as [|c p IH]; simpl; [reflexivity|].
  now rewrite N.eqb_refl, IH.
Qed.

(** Replacing a prefix by nothing strips it. *)
Lemma replace_prefix (p s : jsstring) :
  Js.startsWith p s = true -> Js.replace p [] s = skipn (List.length p) s.
Proof.
  intros H. destruct s as [|c s]; simpl; rewrite H; reflexivity.
Qed.

(** X10. A credential that does not verify is no credential. The token
    given to the auth provider is the header without its first seven
    characters, and only for a header that starts with "Bearer "; and a
    request the provider does not vouch for is answered, and changes the
    store, exactly as the same request without an [Authorization] header:
    it is never turned away for its credential. *)
Theorem bad_credential_is_anonymous (e : Env) (req : Request) (s : Store) :
  (match authorization req with
   | Some header =>
       authenticate e req =
       if Js.startsWith (Js.lit "Bearer ") header
       then getUser e (skipn 7 header)
       else None
   | None => authenticate e req = None
   end)
  /\ (authenticate e req = None ->
      respond e req s = respond e (without_authorization req) s).
Proof.
  split.
  - unfold authenticate. destruct (authorization req) as [header|];
      [|reflexivity].
    destruct (Js.startsWith (Js.lit "Bearer ") header) eqn:Hs.
    + assert (Js.truthy (Some header) = true) as ->
        by (destruct header; [discriminate|reflexivity]).
      cbn [andb]. now rewrite replace_prefix.
    + now rewrite andb_false_r.
  - intros Hu. unfold respond, serve, serve_try.
    assert (authenticate e (without_authorization req) = None) as ->
      by reflexivity.
    rewrite Hu. reflexivity.
Qed.

(* ================================================================= *)
(** ** One caller, served again and again *)

Lemma lone_step (e : Env) (req : Request) (s : Store)
  (clientIP anonymousId sanitized : jsstring) (r : RateLimitRequest) (k : Z) :
  resolved req clientIP anonymousId r ->
  action r = Js.lit "record" ->
  success r = Some true ->
  authenticate e req = None ->
  sanitizeFingerprint (fingerprint r) = Ok sanitized ->
  0 <= k <= 5 ->
  anonymous_usage s = lone_rows anonymousId clientIP sanitized (today e) k ->
  anonymous_usage (snd (respond e req s))
  = lone_rows anonymousId clientIP sanitized (today e) (Z.min (k + 1) 5)
  /\ is_recorded (fst (respond e req s)) = (k <? 5).
Proof.
  intros Hres Hact Hsucc Hauth Hfp Hk Hrows.
  assert (used_at_record s None anonymousId clientIP (today e) = k) as Hused.
  { unfold used_at_record, own_anonymous_usage, ip_usage. rewrite Hrows.
    unfold lone_rows. destruct (k =? 0) eqn:E; simpl.
    - apply Z.eqb_eq in E. subst k. reflexivity.
    - unfold anonymous_key, ip_key. cbn.
      rewrite !JsFacts.eqb_refl. cbn. unfold sum. cbn. lia. }
  assert (wants_record r = true) as Hwants
    by (unfold wants_record; now rewrite Hact, Hsucc).
  assert (Js.eqb (action r) (Js.lit "check") = false) as Hnocheck
    by (now rewrite Hact).
  destruct (serve_view e req s) as
    [Hm|response Hm Hrej|clientIP0 anonymousId0 r0 Hres0 Hact0 user used cap
    |clientIP0 anonymousId0 r0 Hres0 Hact0 Hw
    |clientIP0 anonymousId0 r0 Hres0 Hact0 Hw user currentUsage Hcap
    |clientIP0 anonymousId0 sanitized0 r0 Hres0 Hact0 Hw Hfp0 user currentUsage
       Hcap];
    try (destruct (resolved_not_rejected _ _ _ _ Hres); congruence);
    destruct (resolved_unique _ _ _ _ _ _ _ Hres Hres0) as (<- & <- & <-);
    try congruence.
  - subst currentUsage user. rewrite Hauth, Hused in Hcap.
    unfold maxGenerations, ANONYMOUS_DAILY_LIMIT in Hcap. cbn in Hcap.
    assert (k = 5) as -> by lia. cbn [fst snd]. split; [exact Hrows|reflexivity].
  - subst currentUsage user. rewrite Hauth, Hused in *.
    unfold maxGenerations, ANONYMOUS_DAILY_LIMIT in Hcap. cbn in Hcap.
    assert (sanitized0 = sanitized) as -> by congruence.
    cbn [fst snd is_recorded ok body]. split.
    + unfold accepted_store, usage_upsert.
      cbn [perform snd anonymous_usage au_anonymous_id au_date].
      rewrite Hrows. replace (Z.min (k + 1) 5) with (k + 1) by lia.
      unfold lone_rows. replace (k + 1 =? 0) with false
        by (symmetry; apply Z.eqb_neq; lia).
      destruct (k =? 0); [reflexivity|].
      unfold upsert, anonymous_key. cbn. now rewrite !JsFacts.eqb_refl.
    + symmetry. now apply Z.ltb_lt.
Qed.

(** X13. A fingerprint alone on its address is counted one by one. When
    [anonymous_usage] is empty and one anonymous caller sends [n] successful
    record requests on one day, served one at a time, the first 5 are
    accepted and the others refused: the table then holds one row with
    [min(n, 5)], and [min(n, 5)] answers are accepted records. *)
Theorem serial_records_of_a_lone_fingerprint (e : Env) (req : Request)
  (clientIP anonymousId sanitized : jsstring) (r : RateLimitRequest)
  (n : nat) (s : Store) :
  resolved req clientIP anonymousId r ->
  action r = Js.lit "record" ->
  success r = Some true ->
  authenticate e req = None ->
  sanitizeFingerprint (fingerprint r) = Ok sanitized ->
  anonymous_usage s = [] ->
  anonymous_usage (serve_all (repeat (e, req) n) s)
  = lone_rows anonymousId clientIP sanitized (today e) (Z.min (Z.of_nat n) 5)
  /\ count_recorded (fst (serve_each (repeat (e, req) n) s)) = Nat.min n 5.
Proof.
  intros Hres Hact Hsucc Hauth Hfp Hempty.
  assert (forall (m : nat) (s0 : Store) (k : Z),
             0 <= k <= 5 ->
             anonymous_usage s0
             = lone_rows anonymousId clientIP sanitized (today e) k ->
             anonymous_usage (serve_all (repeat (e, req) m) s0)
             = lone_rows anonymousId clientIP sanitized (today e)
                 (Z.min (k + Z.of_nat m) 5)
             /\ Z.of_nat
                  (count_recorded (fst (serve_each (repeat (e, req) m) s0)))
                = Z.min (k + Z.of_nat m) 5 - k) as Hgen.
  { induction m as [|m IH]; intros s0 k Hk Hrows.
    - cbn [repeat serve_all fold_left serve_each fst count_recorded filter
           List.length].
      rewrite Hrows. replace (Z.min (k + Z.of_nat 0) 5) with k by lia.
      split; [reflexivity|lia].
    - cbn [repeat]. rewrite count_recorded_cons.
      cbn [serve_all fold_left fst snd].
      fold (serve_all (repeat (e, req) m) (snd (respond e req s0))).
      destruct (lone_step e req s0 clientIP anonymousId sanitized r k
                  Hres Hact Hsucc Hauth Hfp Hk Hrows) as [Hrows' Hrec].
      destruct (IH (snd (respond e req s0)) (Z.min (k + 1) 5) ltac:(lia)
                  Hrows') as [IH1 IH2].
      rewrite IH1, Hrec. rewrite Nat2Z.inj_add, IH2.
      replace (Z.min (Z.min (k + 1) 5 + Z.of_nat m) 5)
        with (Z.min (k + Z.of_nat (S m)) 5) by lia.
      split; [reflexivity|].
      destruct (k <? 5) eqn:E;
        [apply Z.ltb_lt in E|apply Z.ltb_ge in E]; cbn [Z.of_nat]; lia. }
  destruct (Hgen n s 0 ltac:(lia) Hempty) as [H1 H2].
  split; [exact H1|]. lia.
Qed.

Lemma serial_records_of_a_lone_fingerprint_witness :
  anonymous_usage (serve_all (repeat (env, recordA) 7) empty_store)
  = lone_rows idA ip fpA (today env) (Z.min (Z.of_nat 7) 5)
  /\ count_recorded (fst (serve_each (repeat (env, recordA) 7) empty_store))
     = Nat.min 7 5.
Proof.
  exact (serial_records_of_a_lone_fingerprint env recordA ip idA fpA _ 7
           empty_store recordA_resolved eq_refl eq_refl eq_refl eq_refl
           eq_refl).
Defined.


Lemma interleaved_usage_never_exceeds_cap_witness :
  within_caps
    (snd (run_schedule [0; 1; 0; 0; 1; 1]%nat
            (map (fun er => serve (fst er) (snd er))
               [(env, recordU); (env, recordU)]) empty_store)) = true.
Proof. apply interleaved_usage_never_exceeds_cap. reflexivity. Defined.

(* ================================================================= *)
(** ** The fingerprint the browser sends *)

Import Fingerprint.

Lemma toInt32_range (x : Z) : -2147483648 <= toInt32 x < 2147483648.
Proof.
  unfold toInt32.
  pose proof (Z.mod_pos_bound (x + 2147483648) 4294967296 ltac:(lia)). lia.
Qed.

Lemma hash_range (s : jsstring) (h : Z) :
  -2147483648 <= h < 2147483648 ->
  -2147483648 <= fold_left hash_char s h < 2147483648.
Proof.
  revert h. induction s as [|c s IH]; intros h Hh; simpl; [exact Hh|].
  apply IH. unfold hash_char. apply toInt32_range.
Qed.

Lemma digit36_alnum (d : Z) : 0 <= d < 36 -> isAlnum (digit36 d) = true.
Proof.
  intros Hd. apply isAlnum_spec. unfold digit36.
  destruct (d <? 10) eqn:E; [apply Z.ltb_lt in E|apply Z.ltb_ge in E]; lia.
Qed.

Lemma digits36_alnum (fuel : nat) (n : Z) :
  0 <= n -> Forall (fun c => isAlnum c = true) (digits36 fuel n).
Proof.
  revert n. induction fuel as [|fuel IH]; intros n Hn; simpl; [constructor|].
  apply Forall_app. split.
  - destruct (n <? 36); [constructor|]. apply IH. apply Z.div_pos; lia.
  - constructor; [|constructor]. apply digit36_alnum.
    apply Z.mod_pos_bound. lia.
Qed.

Lemma digits36_length (fuel k : nat) (n : Z) :
  0 <= n < 36 ^ Z.of_nat (S k) ->
  (1 <= List.length (digits36 (S fuel) n) <= S k)%nat.
Proof.
  revert k n. induction fuel as [|fuel IH]; intros k n Hn.
  - simpl. destruct (n <? 36); simpl; lia.
  - change (digits36 (S (S fuel)) n)
      with ((if n <? 36 then [] else digits36 (S fuel) (n / 36))
            ++ [digit36 (n mod 36)]).
    rewrite length_app. cbn [List.length].
    destruct (n <? 36) eqn:E; [simpl; lia|]. apply Z.ltb_ge in E.
    destruct k as [|k].
    + change (36 ^ Z.of_nat 1) with 36 in Hn. lia.
    + assert (0 <= n / 36 < 36 ^ Z.of_nat (S k)) as Hq.
      { split; [apply Z.div_pos; lia|].
        apply Z.div_lt_upper_bound; [lia|].
        rewrite <- Z.pow_succ_r by lia. rewrite <- Nat2Z.inj_succ. lia. }
      specialize (IH k (n / 36) Hq). lia.
Qed.

(** A non-empty alphanumeric string of at most 500 characters passes
    [sanitizeFingerprint] as it is. *)
Lemma sanitizeFingerprint_keeps (s : jsstring) :
  s <> [] -> Forall (fun c => isAlnum c = true) s ->
  Js.length s <= MAX_FINGERPRINT_LENGTH ->
  sanitizeFingerprint (Some s) = Ok s.
Proof.
  intros Hne Halnum Hlen. unfold sanitizeFingerprint.
  destruct s as [|c s]; [congruence|]. cbn [Js.truthy negb orb].
  replace (Js.length (c :: s) >? MAX_FINGERPRINT_LENGTH) with false
    by (symmetry; rewrite Z.gtb_ltb; apply Z.ltb_ge; exact Hlen).
  f_equal. unfold substring0.
  assert (filter isAlnum (c :: s) = c :: s) as ->.
  { clear Hne Hlen. induction Halnum as [|x l Hx Hl IH]; simpl;
      [reflexivity|]. now rewrite Hx, IH. }
  apply firstn_all2. unfold Js.length, MAX_FINGERPRINT_LENGTH in *. lia.
Qed.

(** [toString36] writes the number it is given: reading the digits back
    gives the number. *)
Lemma parse36_app (acc : Z) (a b : jsstring) :
  parse36 acc (a ++ b) =
  match parse36 acc a with
  | Some v => parse36 v b
  | None => None
  end.
Proof.
  revert acc. induction a as [|c a IH]; intros acc; simpl; [reflexivity|].
  destruct (value36 c); [apply IH|reflexivity].
Qed.

Lemma value36_digit36 (d : Z) : 0 <= d < 36 -> value36 (digit36 d) = Some d.
Proof.
  intros Hd. unfold value36, digit36.
  destruct (d <? 10) eqn:E; [apply Z.ltb_lt in E|apply Z.ltb_ge in E];
    rewrite Z2N.id by lia.
  - replace ((48 <=? 48 + d) && (48 + d <=? 57)) with true
      by (symmetry; apply andb_true_iff; split; apply Z.leb_le; lia).
    f_equal. lia.
  - replace ((48 <=? 87 + d) && (87 + d <=? 57)) with false
      by (symmetry; apply andb_false_iff; right; apply Z.leb_gt; lia).
    replace ((97 <=? 87 + d) && (87 + d <=? 122)) with true
      by (symmetry; apply andb_true_iff; split; apply Z.leb_le; lia).
    f_equal. lia.
Qed.

Lemma parse36_digits36 (fuel : nat) (n : Z) :
  0 <= n < 36 ^ Z.of_nat fuel -> parse36 0 (digits36 fuel n) = Some n.
Proof.
  revert n. induction fuel as [|fuel IH]; intros n Hn.
  - change (36 ^ Z.of_nat 0) with 1 in Hn. assert (n = 0) as -> by lia.
    reflexivity.
  - cbn [digits36]. rewrite parse36_app.
    assert (0 <= n mod 36 < 36) as Hm by (apply Z.mod_pos_bound; lia).
    destruct (n <? 36) eqn:E; [apply Z.ltb_lt in E|apply Z.ltb_ge in E].
    + simpl. rewrite value36_digit36 by exact Hm.
      rewrite Z.mod_small by lia. reflexivity.
    + rewrite IH.
      * simpl. rewrite value36_digit36 by exact Hm. f_equal.
        pose proof (Z.div_mod n 36 ltac:(lia)). lia.
      * split; [apply Z.div_pos; lia|].
        apply Z.div_lt_upper_bound; [lia|].
        rewrite <- Z.pow_succ_r by lia. rewrite <- Nat2Z.inj_succ. lia.
Qed.

Lemma parse36_toString36 (n : Z) : 0 <= n -> parse36 0 (toString36 n) = Some n.
Proof.
  intros Hn. unfold toString36. apply parse36_digits36. split; [exact Hn|].
  rewrite Nat2Z.inj_succ, Z2Nat.id by apply Z.log2_nonneg.
  destruct (Z.eq_dec n 0) as [->|Hne]; [reflexivity|].
  pose proof (Z.log2_spec n ltac:(lia)) as [_ Hlt].
  assert (2 ^ Z.succ (Z.log2 n) <= 36 ^ Z.succ (Z.log2 n))
    by (apply Z.pow_le_mono_l; lia).
  lia.
Qed.

(** X14. The hash the browser computes for its components is a number of
    32 bits written in base 36: between one and six characters, all of them
    digits or lower-case letters, which read back give the absolute value
    of the hash; so the server takes it as it is, [sanitizeFingerprint]
    changes nothing. *)
Theorem fingerprint_hash_is_accepted (fingerprint : jsstring) :
  let hash := hashFingerprint fingerprint in
  (1 <= List.length hash <= 6)%nat
  /\ Forall (fun c => isAlnum c = true) hash
  /\ parse36 0 hash = Some (Z.abs (fold_left hash_char fingerprint 0))
  /\ sanitizeFingerprint (Some hash) = Ok hash.
Proof.
  assert ((1 <= List.length (hashFingerprint fingerprint) <= 6)%nat
          /\ Forall (fun c => isAlnum c = true) (hashFingerprint fingerprint)
          /\ parse36 0 (hashFingerprint fingerprint)
             = Some (Z.abs (fold_left hash_char fingerprint 0)))
    as (Hlen & Halnum & Hparse).
  { unfold hashFingerprint. destruct (Js.length fingerprint =? 0) eqn:E.
    - apply Z.eqb_eq in E. destruct fingerprint; [|discriminate].
      split; [simpl; lia|]. split; [repeat constructor|reflexivity].
    - pose proof (hash_range fingerprint 0 ltac:(lia)) as Hr.
      split; [|split].
      + apply digits36_length. change (36 ^ Z.of_nat 6) with 2176782336. lia.
      + apply digits36_alnum. lia.
      + apply parse36_toString36. lia. }
  cbv zeta. split; [exact Hlen|]. split; [exact Halnum|].
  split; [exact Hparse|].
  apply sanitizeFingerprint_keeps; [|exact Halnum|].
  - destruct (hashFingerprint fingerprint); [simpl in Hlen; lia|discriminate].
  - unfold Js.length, MAX_FINGERPRINT_LENGTH. lia.
Qed.

Lemma filter_app_alnum (a b : jsstring) :
  filter isAlnum (a ++ b) = filter isAlnum a ++ filter isAlnum b.
Proof. apply filter_app. Qed.

Lemma filter_alnum_id (s : jsstring) :
  Forall (fun c => isAlnum c = true) s -> filter isAlnum s = s.
Proof.
  induction 1 as [|x l Hx Hl IH]; simpl; [reflexivity|]. now rewrite Hx, IH.
Qed.

(** X15. The server knows a device by its id without the underscores. For
    a device id [fingerprint_timestamp_random] made of an alphanumeric
    fingerprint, the time in base 36 and six characters of a random number
    in base 36, of at most 500 characters in all, [sanitizeFingerprint]
    gives the three parts put together without the two separators. *)
Theorem device_id_loses_its_separators (fingerprint random36 : jsstring)
  (now : Z) :
  0 <= now ->
  Forall (fun c => isAlnum c = true) fingerprint ->
  Forall (fun c => isAlnum c = true) (substring 2 8 random36) ->
  Js.length (newDeviceId fingerprint now random36) <= MAX_FINGERPRINT_LENGTH ->
  sanitizeFingerprint (Some (newDeviceId fingerprint now random36))
  = Ok (fingerprint ++ toString36 now ++ substring 2 8 random36).
Proof.
  intros Hnow Hfp Hrnd Hlen. unfold sanitizeFingerprint.
  assert (exists c s, newDeviceId fingerprint now random36 = c :: s)
    as (c & s & Hs).
  { unfold newDeviceId. destruct fingerprint; simpl; eauto. }
  rewrite Hs at 1. cbn [Js.truthy negb orb].
  replace (Js.length (newDeviceId fingerprint now random36)
           >? MAX_FINGERPRINT_LENGTH) with false
    by (symmetry; rewrite Z.gtb_ltb; apply Z.ltb_ge; exact Hlen).
  f_equal. unfold substring0.
  assert (filter isAlnum (newDeviceId fingerprint now random36)
          = fingerprint ++ toString36 now ++ substring 2 8 random36) as ->.
  { unfold newDeviceId. rewrite !filter_app.
    rewrite (filter_alnum_id fingerprint Hfp),
      (filter_alnum_id (substring 2 8 random36) Hrnd),
      (filter_alnum_id (toString36 now)) by (apply digits36_alnum; exact Hnow).
    reflexivity. }
  apply firstn_all2.
  assert (List.length (fingerprint ++ toString36 now ++ substring 2 8 random36)
          <= List.length (newDeviceId fingerprint now random36))%nat.
  { unfold newDeviceId. rewrite !length_app. simpl. lia. }
  unfold Js.length, MAX_FINGERPRINT_LENGTH in *. lia.
Qed.

Lemma device_id_loses_its_separators_witness :
  sanitizeFingerprint
    (Some (newDeviceId (Js.lit "1x2y3z") 1737000000000 (Js.lit "0.4fzyo82mvyr")))
  = Ok (Js.lit "1x2y3z" ++ toString36 1737000000000
        ++ substring 2 8 (Js.lit "0.4fzyo82mvyr")).
Proof.
  apply device_id_loses_its_separators.
  - lia.
  - repeat constructor.
  - repeat constructor.
  - vm_compute. discriminate.
Defined.


(* ================================================================= *)
(** ** The fallback counter in the browser *)

Lemma maxGenerations_capOf (isAuthenticated : bool) :
  maxGenerations isAuthenticated = Client.capOf isAuthenticated.
Proof. now destruct isAuthenticated. Qed.

Import Client.

Lemma getItem_removeItem (st : LocalStorage) (key key' : jsstring) :
  key' <> key -> getItem (removeItem st key) key' = getItem st key'.
Proof.
  intros Hne. induction st as [|[k v] st IH]; simpl; [reflexivity|].
  destruct (Js.eqb k key) eqn:E; simpl.
  - apply JsFacts.eqb_eq in E. subst k.
    replace (Js.eqb key key') with false
      by (symmetry; apply JsFacts.eqb_neq; congruence).
    exact IH.
  - destruct (Js.eqb k key'); [reflexivity|exact IH].
Qed.

Lemma getItem_setItem (st : LocalStorage) (key key' : jsstring) (v : Item) :
  getItem (setItem st key v) key' =
  if Js.eqb key key' then Some v else getItem st key'.
Proof.
  unfold setItem. simpl. destruct (Js.eqb key key') eqn:E; [reflexivity|].
  apply getItem_removeItem. apply JsFacts.eqb_neq in E. congruence.
Qed.

Lemma storageKey_injective (a a' : bool) (d d' : jsstring) :
  storageKey a d = storageKey a' d' -> a = a' /\ d = d'.
Proof.
  unfold storageKey. destruct a, a'; simpl; intros [= H]; auto; discriminate.
Qed.

Lemma fallbackRecords_S (n : nat) (st : LocalStorage) (d today : jsstring)
  (a : bool) :
  fallbackRecords (S n) st d today a
  = recordFallbackGeneration (fallbackRecords n st d today a) d today a.
Proof. reflexivity. Qed.

Lemma usageData_date (st : LocalStorage) (key today : jsstring) :
  fst (usageData st key today) = today.
Proof.
  unfold usageData. destruct (getItem st key) as [[t|date c]|];
    try reflexivity.
  destruct (Js.eqb date today) eqn:E; [|reflexivity].
  now apply JsFacts.eqb_eq in E.
Qed.

Lemma usageData_after_record (st : LocalStorage) (d today : jsstring) (a : bool) :
  usageData (recordFallbackGeneration st d today a) (storageKey a d) today
  = (today, Z.min (snd (usageData st (storageKey a d) today) + 1) (capOf a)).
Proof.
  unfold recordFallbackGeneration.
  assert (fst (usageData st (storageKey a d) today) = today) as Hdate.
  { unfold usageData. destruct (getItem st (storageKey a d)) as [[t|date c]|];
      try reflexivity.
    destruct (Js.eqb date today) eqn:E; [|reflexivity].
    now apply JsFacts.eqb_eq in E. }
  destruct (usageData st (storageKey a d) today) as [date count].
  simpl in Hdate. subst date. unfold usageData at 1.
  rewrite getItem_setItem, !JsFacts.eqb_refl. reflexivity.
Qed.

Lemma usageData_other (st : LocalStorage) (d today key day : jsstring)
  (a : bool) :
  key <> storageKey a d ->
  usageData (recordFallbackGeneration st d today a) key day
  = usageData st key day.
Proof.
  intros Hne. unfold recordFallbackGeneration.
  destruct (usageData st (storageKey a d) today) as [date count].
  unfold usageData. rewrite getItem_setItem.
  replace (Js.eqb (storageKey a d) key) with false
    by (symmetry; apply JsFacts.eqb_neq; congruence).
  reflexivity.
Qed.

(** X16. The fallback counter counts one by one and stops at the cap.
    After one more fallback record on the same day, the fallback statistics
    of the same device and sign-in state show one more generation, but
    never more than the cap (10 signed in, 5 otherwise), with
    [remaining = max(0, cap - used)] and [canGenerate] exactly when
    something remains; the statistics of every other device or sign-in
    state are as they were. *)
Theorem fallback_record_counts_to_cap (st : LocalStorage)
  (deviceId today : jsstring) (a : bool) :
  let st' := recordFallbackGeneration st deviceId today a in
  let before := getFallbackUsageStats st deviceId today a in
  let after := getFallbackUsageStats st' deviceId today a in
  generationsUsed after = Z.min (generationsUsed before + 1) (capOf a)
  /\ generationsUsed after <= capOf a
  /\ generationsRemaining after = Z.max 0 (capOf a - generationsUsed after)
  /\ canGenerate after = (generationsUsed after <? capOf a)
  /\ forall deviceId' day a',
       (a', deviceId') <> (a, deviceId) ->
       getFallbackUsageStats st' deviceId' day a'
       = getFallbackUsageStats st deviceId' day a'.
Proof.
  cbv zeta. unfold getFallbackUsageStats.
  cbn [generationsUsed generationsRemaining canGenerate].
  rewrite usageData_after_record. cbn [snd].
  set (used := snd (usageData st (storageKey a deviceId) today)).
  split; [reflexivity|]. split; [lia|]. split; [reflexivity|]. split.
  - rewrite Z.gtb_ltb.
    destruct (Z.min (used + 1) (capOf a) <? capOf a) eqn:E;
      [apply Z.ltb_lt in E; apply Z.ltb_lt|apply Z.ltb_ge in E; apply Z.ltb_ge];
      lia.
  - intros deviceId' day a' Hne. rewrite usageData_other; [reflexivity|].
    intros Hk. apply storageKey_injective in Hk as [-> ->]. congruence.
Qed.

(** X17. The fallback counter is a counter of the day. After [n] fallback
    records on one day, starting from a storage without a record of that
    day, the statistics of that day show [min(n, cap)] generations; and
    after at least one record, the statistics of any other day are those of
    a day without a generation. *)
Theorem fallback_counter_is_per_day (n : nat) (st : LocalStorage)
  (deviceId today : jsstring) (a : bool) :
  generationsUsed (getFallbackUsageStats st deviceId today a) = 0 ->
  generationsUsed
    (getFallbackUsageStats (fallbackRecords n st deviceId today a)
       deviceId today a) = Z.min (Z.of_nat n) (capOf a)
  /\ forall day, day <> today ->
       getFallbackUsageStats (fallbackRecords (S n) st deviceId today a)
         deviceId day a = freshStats a.
Proof.
  intros Hzero. split.
  - assert (forall m,
               snd (usageData (fallbackRecords m st deviceId today a)
                      (storageKey a deviceId) today)
               = Z.min (Z.of_nat m) (capOf a)) as Hgen.
    { induction m as [|m IH].
      - unfold fallbackRecords. simpl. unfold getFallbackUsageStats in Hzero.
        simpl in Hzero. rewrite Hzero. unfold capOf. destruct a; reflexivity.
      - rewrite fallbackRecords_S, usageData_after_record. cbn [snd].
        rewrite IH. unfold capOf. destruct a; lia. }
    unfold getFallbackUsageStats. cbn [generationsUsed]. apply Hgen.
  - intros day Hday. rewrite fallbackRecords_S.
    set (st0 := fallbackRecords n st deviceId today a).
    unfold getFallbackUsageStats, freshStats, recordFallbackGeneration.
    assert (fst (usageData st0 (storageKey a deviceId) today) = today) as Hdate
      by apply usageData_date.
    destruct (usageData st0 (storageKey a deviceId) today) as [date count].
    simpl in Hdate. subst date. unfold usageData.
    rewrite getItem_setItem, JsFacts.eqb_refl.
    replace (Js.eqb today day) with false
      by (symmetry; apply JsFacts.eqb_neq; congruence).
    cbn [snd]. rewrite Z.sub_0_r.
    replace (Z.max 0 (capOf a)) with (capOf a) by (destruct a; reflexivity).
    replace (capOf a >? 0) with true by (destruct a; reflexivity).
    reflexivity.
Qed.

Lemma fallback_counter_is_per_day_witness :
  generationsUsed
    (getFallbackUsageStats
       (fallbackRecords 7 [] (Js.lit "dev") (Js.lit "Wed Jan 15 2025") false)
       (Js.lit "dev") (Js.lit "Wed Jan 15 2025") false)
  = Z.min (Z.of_nat 7) (capOf false).
Proof.
  apply (fallback_counter_is_per_day 7 [] (Js.lit "dev")
           (Js.lit "Wed Jan 15 2025") false).
  reflexivity.
Defined.

Lemma getItem_filter_gone (keep : jsstring -> bool) (st : LocalStorage)
  (key : jsstring) :
  keep key = false ->
  getItem (filter (fun kv => keep (fst kv)) st) key = None.
Proof.
  intros Hkey. induction st as [|[k v] st IH]; simpl; [reflexivity|].
  destruct (keep k) eqn:Ek; simpl; [|exact IH].
  destruct (Js.eqb k key) eqn:E; [|exact IH].
  apply JsFacts.eqb_eq in E. congruence.
Qed.

(** X18. Clearing the local data resets the fallback quota and the device.
    [clearLocalData] removes its keys and then asks for the device id
    again: the id it gets is always a newly made one, never the one that
    was stored; it is stored under [device_id_v2] when the storage can be
    written; and in the storage it leaves, the fallback statistics of every
    device, day and sign-in state are those of a day without a generation,
    whatever was counted before. *)
Theorem clearing_resets_the_fallback (stringify : jsstring -> Z -> jsstring)
  (st : LocalStorage) (b : Browser) :
  let (deviceId', st') := clearLocalData stringify st b in
  deviceId'
  = newDeviceId (generateFingerprint (components b) (fallback36 b)) (now b)
      (random36 b)
  /\ getItem st' (Js.lit "device_id_v2")
     = (if writable b then Some (Plain deviceId') else None)
  /\ forall deviceId today a,
       getFallbackUsageStats st' deviceId today a = freshStats a.
Proof.
  unfold clearLocalData, getDeviceId.
  set (keep := fun k : jsstring =>
                 negb (includes (Js.lit "usage") k
                       || includes (Js.lit "device_id") k
                       || includes (Js.lit "session_id") k)).
  change (filter _ st) with (filter (fun kv => keep (fst kv)) st).
  set (kept := filter (fun kv => keep (fst kv)) st).
  assert (forall key, keep key = false -> getItem kept key = None) as Hgone
    by (intros key Hkey; now apply getItem_filter_gone).
  rewrite (Hgone (Js.lit "device_id_v2") eq_refl).
  cbn [option_map Js.truthy negb].
  assert (forall deviceId a, keep (storageKey a deviceId) = false) as Husage.
  { intros deviceId a. unfold keep.
    assert (includes (Js.lit "usage") (storageKey a deviceId) = true) as ->
      by (destruct a; reflexivity).
    reflexivity. }
  split; [reflexivity|]. split.
  - destruct (writable b); [|now apply Hgone].
    now rewrite getItem_setItem, JsFacts.eqb_refl.
  - intros deviceId today a.
    assert (getItem (if writable b
                     then setItem kept (Js.lit "device_id_v2")
                            (Plain (newDeviceId
                                      (generateFingerprint (components b)
                                         (fallback36 b)) (now b) (random36 b)))
                     else kept) (storageKey a deviceId) = None) as Hnone.
    { destruct (writable b); [|now apply Hgone].
      rewrite getItem_setItem.
      replace (Js.eqb (Js.lit "device_id_v2") (storageKey a deviceId))
        with false by (destruct a; reflexivity).
      now apply Hgone. }
    unfold getFallbackUsageStats, freshStats, usageData. rewrite Hnone.
    cbn [snd]. rewrite Z.sub_0_r. destruct a; reflexivity.
Qed.

(* ================================================================= *)
(** ** The client against the function *)

Lemma fallback_stats_ok (st : LocalStorage) (deviceId today : jsstring)
  (a : bool) :
  stats_ok (getFallbackUsageStats st deviceId today a).
Proof.
  unfold stats_ok, getFallbackUsageStats.
  cbn [generationsUsed generationsRemaining canGenerate isAuthenticated
       Client.maxGenerations limitType].
  set (used := snd (usageData st (storageKey a deviceId) today)).
  assert (0 < capOf a) as Hcap by (destruct a; reflexivity).
  rewrite Z.gtb_ltb.
  split; [lia|]. split; [reflexivity|]. split; [reflexivity|].
  split; [reflexivity|]. intros H. apply Z.ltb_lt in H. lia.
Qed.

Lemma client_request_resolved (forwarded real cf default_auth : option jsstring)
  (session : option Session) (body : RateLimitRequest)
  (clientIP anonymousId : jsstring) (r : RateLimitRequest) :
  resolved (requestOf forwarded real cf default_auth session body)
    clientIP anonymousId r ->
  r = body.
Proof. intros (_ & _ & Hj & _). simpl in Hj. congruence. Qed.

(** X19. What [checkUsageLimit] shows is always well formed, and asking
    costs nothing. Whatever the network does and whatever the store holds,
    a check of the client leaves the store of the function as it was and
    yields statistics (never an object with missing fields) with
    [0 <= generationsRemaining], [canGenerate] exactly when something
    remains, [maxGenerations] and [limitType] those of [isAuthenticated],
    and [generationsUsed + generationsRemaining = maxGenerations] whenever
    [canGenerate]; when the call failed they are the fallback statistics
    of the browser. *)
Theorem checkUsageLimit_is_well_formed (st : LocalStorage)
  (deviceId today : jsstring) (session : option Session) (net : Network)
  (e : Env) (s : Store) :
  let (invoked, s') := invoke net e session (checkBody deviceId) s in
  s' = s
  /\ exists stats,
       checkUsageLimit st deviceId today session invoked = Some stats
       /\ stats_ok stats
       /\ (failed invoked = true ->
           stats = getFallbackUsageStats st deviceId today (signedIn session)).
Proof.
  unfold invoke. destruct net as [|forwarded real cf default_auth
                                  |forwarded real cf default_auth].
  - split; [reflexivity|]. eexists. split; [reflexivity|].
    split; [apply fallback_stats_ok|reflexivity].
  - set (req := requestOf forwarded real cf default_auth session
                  (checkBody deviceId)).
    destruct (serve_view e req s) as
      [Hm|response Hm Hrej|clientIP anonymousId r Hres Hact user used cap
      |clientIP anonymousId r Hres Hact Hw
      |clientIP anonymousId r Hres Hact Hw user currentUsage Hcap
      |clientIP anonymousId sanitized r Hres Hact Hw Hfp user currentUsage
         Hcap];
      try discriminate Hm;
      try (apply client_request_resolved in Hres; subst r;
           discriminate Hact).
    + destruct (rejection_is_error _ _ Hrej) as (code & msg & -> & Hcode).
      split; [reflexivity|].
      assert (failed (Answered (error_response code msg)) = true) as Hf
        by (destruct Hcode as [-> | ->]; reflexivity).
      unfold checkUsageLimit. rewrite Hf. eexists. split; [reflexivity|].
      split; [apply fallback_stats_ok|reflexivity].
    + split; [reflexivity|]. unfold checkUsageLimit.
      cbn [failed ok status body]. cbn [Z.leb Z.compare Pos.compare
        Pos.compare_cont andb negb].
      eexists. split; [reflexivity|]. split; [|discriminate].
      unfold stats_ok.
      cbn [generationsUsed generationsRemaining canGenerate isAuthenticated
           Client.maxGenerations limitType].
      assert (cap = capOf (isSome user)) as Hc
        by (subst cap; apply maxGenerations_capOf).
      assert (0 < cap) as Hcap
        by (rewrite Hc; now destruct (isSome user)).
      destruct (check_fields used cap Hcap) as (H0 & Hcg & Hsum).
      split; [exact H0|]. split; [exact Hcg|].
      split; [now destruct (isSome user)|].
      split; [unfold limitTypeOf; now destruct (isSome user)|].
      intros H. rewrite (Hsum H). rewrite Hc. unfold capOf.
      now destruct (isSome user).
  - split.
    + set (req := requestOf forwarded real cf default_auth session
                    (checkBody deviceId)).
      destruct (serve_view e req s) as
        [Hm|response Hm Hrej|clientIP anonymousId r Hres Hact user used cap
        |clientIP anonymousId r Hres Hact Hw
        |clientIP anonymousId r Hres Hact Hw user currentUsage Hcap
        |clientIP anonymousId sanitized r Hres Hact Hw Hfp user currentUsage
           Hcap];
        try reflexivity.
      apply client_request_resolved in Hres. subst r. discriminate Hact.
    + eexists. split; [reflexivity|].
      split; [apply fallback_stats_ok|reflexivity].
Qed.





(* ================================================================= *)
(** ** The analytics of the audit log *)

Lemma filter_split_length {A : Type} (f : A -> bool) (l : list A) :
  (List.length (filter f l) + List.length (filter (fun x => negb (f x)) l)
   = List.length l)%nat.
Proof.
  induction l as [|x l IH]; [reflexivity|].
  simpl. destruct (f x); simpl; lia.
Qed.

Lemma distinct_le (l : list (option jsstring)) :
  (distinct l <= List.length l)%nat.
Proof.
  unfold distinct. induction l as [|x l IH]; [apply le_n|].
  simpl. destruct (in_dec option_jsstring_eq_dec x l); simpl; lia.
Qed.

Lemma distinct_positive (l : list (option jsstring)) :
  l <> [] -> (0 < distinct l)%nat.
Proof.
  unfold distinct. induction l as [|x l IH]; [congruence|]. intros _.
  simpl. destruct (in_dec option_jsstring_eq_dec x l) as [Hin|]; simpl;
    [|lia].
  apply IH. intros ->. destruct Hin.
Qed.

(** X21. The counts of [getUsageAnalytics] add up. For every selection of
    log rows, [totalGenerations = successfulGenerations + failedGenerations];
    the unique callers are at most as many as the rows; and there is a
    unique caller as soon as there is a row. *)
Theorem analytics_add_up (data : list GenerationLog) :
  let a := getUsageAnalytics data in
  totalGenerations a = (successfulGenerations a + failedGenerations a)%nat
  /\ (totalUniqueUsers a <= totalGenerations a)%nat
  /\ (data <> [] -> (0 < totalUniqueUsers a)%nat).
Proof.
  cbv zeta. unfold getUsageAnalytics.
  cbn [totalGenerations successfulGenerations failedGenerations
       totalUniqueUsers].
  split; [symmetry; apply filter_split_length|].
  pose proof (filter_split_length
                (fun l : GenerationLog => Js.truthy (gl_user_id l)) data)
    as Hsplit.
  cbv beta in Hsplit.
  set (users := filter (fun l => Js.truthy (gl_user_id l)) data) in *.
  set (others := filter (fun l => negb (Js.truthy (gl_user_id l))) data) in *.
  pose proof (distinct_le (map gl_user_id users)) as Hu.
  pose proof (distinct_le (map gl_anonymous_id others)) as Ha.
  rewrite length_map in Hu, Ha. split; [lia|].
  intros Hdata.
  destruct users as [|x users].
  - destruct others as [|y others].
    + destruct data; [congruence|discriminate].
    + pose proof (distinct_positive (map gl_anonymous_id (y :: others))
                    ltac:(discriminate)). lia.
  - pose proof (distinct_positive (map gl_user_id (x :: users))
                  ltac:(discriminate)). lia.
Qed.

Lemma filter_none {A : Type} (f : A -> bool) (l : list A) :
  (forall x, In x l -> f x = false) -> filter f l = [].
Proof.
  induction l as [|x l IH]; intros H; [reflexivity|].
  simpl. rewrite (H x (or_introl eq_refl)). apply IH.
  intros y Hy. apply H. now right.
Qed.

(** X22. The analytics never show a failed generation. When every row
    already in the audit log is a success, then after any requests served
    one at a time, every selection of rows of the log (in any order) has
    [failedGenerations = 0] and [successfulGenerations = totalGenerations]:
    the function writes no row for a failed generation. *)
Theorem analytics_show_no_failure (reqs : list (Env * Request)) (s : Store)
  (data : list GenerationLog) :
  Forall (fun l => gl_success l = true) (generation_logs s) ->
  incl data (generation_logs (serve_all reqs s)) ->
  let a := getUsageAnalytics data in
  failedGenerations a = 0%nat
  /\ successfulGenerations a = totalGenerations a.
Proof.
  intros Hold Hdata. cbv zeta.
  assert (forall l, In l data -> gl_success l = true) as Hall.
  { intros l Hl. apply Hdata in Hl.
    destruct (serve_all_log_rows reqs s) as (added & Hlogs & _ & Hok).
    rewrite Hlogs in Hl. apply in_app_or in Hl as [Hl|Hl].
    - rewrite Forall_forall in Hold. now apply Hold.
    - rewrite forallb_forall in Hok. apply Hok in Hl. unfold log_row_ok in Hl.
      repeat (apply andb_true_iff in Hl as [Hl ?]). assumption. }
  pose proof (filter_split_length gl_success data) as Hsplit.
  unfold getUsageAnalytics.
  cbn [totalGenerations successfulGenerations failedGenerations].
  assert (filter (fun l => negb (gl_success l)) data = []) as Hnone.
  { apply filter_none. intros l Hl. now rewrite (Hall l Hl). }
  rewrite Hnone in *. simpl in *. split; [reflexivity|lia].
Qed.

Lemma analytics_show_no_failure_witness :
  failedGenerations
    (getUsageAnalytics
       (generation_logs
          (serve_all [(Scenario.env, Scenario.recordA);
                      (Scenario.env, Scenario.failedA);
                      (Scenario.env, Scenario.recordB)] empty_store)))
  = 0%nat.
Proof.
  exact (proj1 (analytics_show_no_failure
                  [(Scenario.env, Scenario.recordA);
                   (Scenario.env, Scenario.failedA);
                   (Scenario.env, Scenario.recordB)] empty_store _
                  (Forall_nil _) (incl_refl _))).
Defined.

(* ================================================================= *)
(** ** The rate limiter of the browser *)

Module RateLimiterFacts.
Import RateLimiter.

Lemma filter_length_le {A : Type} (f g : A -> bool) (l : list A) :
  (forall x, In x l -> f x = true -> g x = true) ->
  (List.length (filter f l) <= List.length (filter g l))%nat.
Proof.
  induction l as [|x l IH]; intros H; [apply le_n|].
  simpl. specialize (IH (fun y Hy => H y (or_intror Hy))).
  destruct (f x) eqn:Ef.
  - rewrite (H x (or_introl eq_refl) Ef). simpl. lia.
  - destruct (g x); simpl; lia.
Qed.

Lemma filter_all {A : Type} (f : A -> bool) (l : list A) :
  (forall x, In x l -> f x = true) -> filter f l = l.
Proof.
  induction l as [|x l IH]; intros H; [reflexivity|].
  simpl. rewrite (H x (or_introl eq_refl)). f_equal. apply IH.
  intros y Hy. apply H. now right.
Qed.

Lemma filter_length_lt {A : Type} (f : A -> bool) (l : list A) (x : A) :
  In x l -> f x = false ->
  (List.length (filter f l) < List.length l)%nat.
Proof.
  induction l as [|y l IH]; intros Hin Hx; [destruct Hin|].
  pose proof (filter_length_le f (fun _ => true) l (fun _ _ _ => eq_refl))
    as Hle.
  rewrite (filter_all (fun _ : A => true) l (fun _ _ => eq_refl)) in Hle.
  simpl. destruct Hin as [-> | Hin].
  - rewrite Hx. lia.
  - specialize (IH Hin Hx). destruct (f y); simpl; lia.
Qed.

Lemma filter_window_twice (c : Config) (earlier now : Z) (l : list Z) :
  earlier <= now ->
  filter (inWindow c now) (filter (inWindow c earlier) l)
  = filter (inWindow c now) l.
Proof.
  intros Hle. induction l as [|t l IH]; [reflexivity|].
  simpl. destruct (inWindow c earlier t) eqn:Ee; simpl.
  - now rewrite IH.
  - rewrite IH. replace (inWindow c now t) with false; [reflexivity|].
    symmetry. unfold inWindow in *. apply Z.ltb_ge in Ee. apply Z.ltb_ge. lia.
Qed.

Lemma guarded_invariant (c : Config) (attempts : list (Z * Z)) :
  0 < timeWindow c ->
  forall clock calls made,
    invariant c clock calls made ->
    ticking clock attempts = true ->
    exists clock',
      invariant c clock' (fst (guarded c attempts calls made))
        (snd (guarded c attempts calls made)).
Proof.
  intros Hw. induction attempts as [|[now1 now2] rest IH];
    intros clock calls made Hinv Htick.
  - exists clock. exact Hinv.
  - cbn [ticking] in Htick.
    apply andb_true_iff in Htick as [Htick Hrest].
    apply andb_true_iff in Htick as [H1 H2].
    apply Z.leb_le in H1, H2.
    destruct Hinv as ((pruned & Hpruned & Hcalls) & Hpast & Hbound).
    cbn [guarded canMakeCall].
    assert (filter (inWindow c now1) calls = filter (inWindow c now1) made)
      as Hkept.
    { rewrite Hcalls. apply filter_window_twice. lia. }
    rewrite Hkept.
    destruct (Z.of_nat (List.length (filter (inWindow c now1) made))
              <? maxCalls c) eqn:Eyes.
    + apply (IH now2); [|exact Hrest]. apply Z.ltb_lt in Eyes.
      assert (forall t, In t (made ++ [now2]) -> t <= now2) as Hpast'.
      { intros t Ht. apply in_app_or in Ht as [Ht|[<-|[]]]; [|lia].
        specialize (Hpast t Ht). lia. }
      split; [|split; [exact Hpast'|]].
      * exists now1. split; [lia|]. unfold recordCall.
        rewrite filter_app. cbn [filter]. unfold inWindow at 3.
        replace (now1 - now2 <? timeWindow c) with true
          by (symmetry; apply Z.ltb_lt; lia).
        reflexivity.
      * intros t Ht. unfold madeInWindow. rewrite filter_app, length_app.
        cbn [filter]. specialize (Hpast' t Ht).
        destruct (Z.eq_dec t now2) as [-> | Hne].
        -- replace ((now2 - timeWindow c <? now2) && (now2 <=? now2))
             with true
             by (symmetry; apply andb_true_iff; split;
                 [apply Z.ltb_lt|apply Z.leb_le]; lia).
           cbn [List.length].
           pose proof (filter_length_le
                         (fun t' => (now2 - timeWindow c <? t')
                                    && (t' <=? now2))
                         (inWindow c now1) made) as Hle.
           assert (forall x, In x made ->
                     (now2 - timeWindow c <? x) && (x <=? now2) = true ->
                     inWindow c now1 x = true) as Himp.
           { intros x _ Hx. apply andb_true_iff in Hx as [Hx _].
             apply Z.ltb_lt in Hx. unfold inWindow. apply Z.ltb_lt. lia. }
           specialize (Hle Himp). lia.
        -- replace ((t - timeWindow c <? now2) && (now2 <=? t)) with false
             by (symmetry; apply andb_false_iff; right; apply Z.leb_gt; lia).
           cbn [List.length]. rewrite Nat.add_0_r.
           apply Hbound. apply in_app_or in Ht as [Ht|[Ht|[]]];
             [exact Ht|congruence].
    + apply (IH now2); [|exact Hrest].
      split; [|split; [|exact Hbound]].
      * exists now1. split; [lia|reflexivity].
      * intros t Ht. specialize (Hpast t Ht). lia.
Qed.

Lemma oldest_is_least (t : Z) (rest : list Z) :
  In (fold_left Z.min rest t) (t :: rest)
  /\ forall x, In x (t :: rest) -> fold_left Z.min rest t <= x.
Proof.
  revert t. induction rest as [|y rest IH]; intros t.
  - simpl. split; [now left|]. intros x [<-|[]]. lia.
  - cbn [fold_left]. destruct (IH (Z.min t y)) as [Hin Hle]. split.
    + destruct Hin as [Hin|Hin]; [|now right; right].
      rewrite <- Hin. destruct (Z.min_spec t y) as [[_ ->]|[_ ->]];
        [now left|now right; left].
    + intros x [Hx|[Hx|Hx]].
      * specialize (Hle (Z.min t y) (or_introl eq_refl)). lia.
      * specialize (Hle (Z.min t y) (or_introl eq_refl)). lia.
      * apply Hle. now right.
Qed.

End RateLimiterFacts.

(** X23. Guarded use of the rate limiter is a sliding window. When
    [recordCall] is called only after [canMakeCall] answered yes, the clock
    never goes back and the window is positive, then starting from a fresh
    limiter no window of [timeWindow] milliseconds that ends at a call
    holds more than [maxCalls] of the calls made, however the attempts are
    spread in time. *)
Theorem guarded_calls_fit_the_window (c : RateLimiter.Config)
  (attempts : list (Z * Z)) (clock : Z) :
  0 < RateLimiter.timeWindow c ->
  RateLimiter.ticking clock attempts = true ->
  let made := snd (RateLimiter.guarded c attempts [] []) in
  forall t, In t made ->
    Z.of_nat (List.length (RateLimiter.madeInWindow c t made))
    <= RateLimiter.maxCalls c.
Proof.
  intros Hw Htick made t Ht.
  destruct (RateLimiterFacts.guarded_invariant c attempts Hw clock [] [])
    as (clock' & _ & _ & Hbound).
  - split; [|split]; try (intros ? []).
    exists clock. split; [lia|reflexivity].
  - exact Htick.
  - now apply Hbound.
Qed.

Lemma guarded_calls_fit_the_window_witness :
  snd (RateLimiter.guarded (RateLimiter.create 2 1)
         [(0, 0); (10, 11); (20, 20); (60000, 60001); (60011, 60011)] [] [])
  = [0; 11; 60001; 60011]
  /\ forall t,
       In t (snd (RateLimiter.guarded (RateLimiter.create 2 1)
                    [(0, 0); (10, 11); (20, 20); (60000, 60001);
                     (60011, 60011)] [] [])) ->
       Z.of_nat
         (List.length
            (RateLimiter.madeInWindow (RateLimiter.create 2 1) t
               (snd (RateLimiter.guarded (RateLimiter.create 2 1)
                       [(0, 0); (10, 11); (20, 20); (60000, 60001);
                        (60011, 60011)] [] []))))
       <= RateLimiter.maxCalls (RateLimiter.create 2 1).
Proof.
  split; [reflexivity|].
  apply (guarded_calls_fit_the_window (RateLimiter.create 2 1)
           [(0, 0); (10, 11); (20, 20); (60000, 60001); (60011, 60011)] 0);
    reflexivity.
Defined.

(** X24. [getTimeUntilNextCall] is the exact wait. For a limiter that
    holds at most [maxCalls] calls, the milliseconds it returns at [now]
    are such that, at every later reading of the clock, [canMakeCall]
    answers yes exactly from [now] plus that wait on; and when it returns
    [Infinity] (no call allowed at all), [canMakeCall] never answers
    yes. *)
Theorem wait_is_exact (c : RateLimiter.Config) (now : Z) (calls : list Z) :
  Z.of_nat (List.length calls) <= RateLimiter.maxCalls c ->
  match RateLimiter.getTimeUntilNextCall c now calls with
  | RateLimiter.Finite wait =>
      0 <= wait
      /\ forall now', now <= now' ->
           snd (RateLimiter.canMakeCall c now' calls) = (now + wait <=? now')
  | RateLimiter.Infinity =>
      forall now', snd (RateLimiter.canMakeCall c now' calls) = false
  end.
Proof.
  intros Hlen. unfold RateLimiter.getTimeUntilNextCall.
  assert (forall now',
            (List.length (filter (RateLimiter.inWindow c now') calls)
             <= List.length calls)%nat) as Hshrink.
  { intros now'.
    pose proof (RateLimiterFacts.filter_length_le
                  (RateLimiter.inWindow c now') (fun _ => true) calls
                  (fun _ _ _ => eq_refl)) as H.
    now rewrite (RateLimiterFacts.filter_all (fun _ : Z => true) calls
                   (fun _ _ => eq_refl)) in H. }
  destruct (Z.of_nat (List.length calls) <? RateLimiter.maxCalls c) eqn:E.
  - apply Z.ltb_lt in E. split; [lia|]. intros now' Hnow.
    cbn [RateLimiter.canMakeCall snd]. specialize (Hshrink now').
    replace (now + 0 <=? now') with true by (symmetry; apply Z.leb_le; lia).
    apply Z.ltb_lt. lia.
  - apply Z.ltb_ge in E. destruct calls as [|t rest].
    + cbn. intros _. apply Z.ltb_ge. simpl in E. lia.
    + cbn [RateLimiter.oldestCall].
      destruct (RateLimiterFacts.oldest_is_least t rest) as [Hin Hleast].
      set (oldest := fold_left Z.min rest t) in *.
      split; [lia|]. intros now' Hnow.
      cbn [RateLimiter.canMakeCall snd].
      destruct (now + Z.max 0 (RateLimiter.timeWindow c - (now - oldest))
                <=? now') eqn:Ew.
      * apply Z.leb_le in Ew. apply Z.ltb_lt.
        pose proof (RateLimiterFacts.filter_length_lt
                      (RateLimiter.inWindow c now') (t :: rest) oldest Hin)
          as Hlt.
        assert (RateLimiter.inWindow c now' oldest = false) as Hout
          by (unfold RateLimiter.inWindow; apply Z.ltb_ge; lia).
        specialize (Hlt Hout). lia.
      * apply Z.leb_gt in Ew. apply Z.ltb_ge.
        rewrite RateLimiterFacts.filter_all; [lia|].
        intros x Hx. specialize (Hleast x Hx).
        unfold RateLimiter.inWindow. apply Z.ltb_lt. lia.
Qed.

Lemma wait_is_exact_witness :
  RateLimiter.getTimeUntilNextCall (RateLimiter.create 2 1) 30000 [5000; 20000]
  = RateLimiter.Finite 35000
  /\ snd (RateLimiter.canMakeCall (RateLimiter.create 2 1) 64999 [5000; 20000])
     = false
  /\ snd (RateLimiter.canMakeCall (RateLimiter.create 2 1) 65000 [5000; 20000])
     = true.
Proof.
  pose proof (wait_is_exact (RateLimiter.create 2 1) 30000 [5000; 20000]
                ltac:(simpl; lia)) as [_ H].
  split; [reflexivity|].
  split; [apply (H 64999)|apply (H 65000)]; lia.
Defined.

(** X25. [getRemainingCalls] agrees with [canMakeCall] and counts down.
    Both prune the same calls, and something remains exactly when
    [canMakeCall] answers yes; and with a positive window, recording a
    call at the reading at which [canMakeCall] answered yes leaves one call
    less remaining at that reading. *)
Theorem remaining_counts_down (c : RateLimiter.Config) (now : Z)
  (calls : list Z) :
  0 < RateLimiter.timeWindow c ->
  let (kept, yes) := RateLimiter.canMakeCall c now calls in
  let (kept', remaining) := RateLimiter.getRemainingCalls c now calls in
  kept' = kept
  /\ yes = (0 <? remaining)
  /\ (yes = true ->
      RateLimiter.getRemainingCalls c now (RateLimiter.recordCall now kept)
      = (kept ++ [now], remaining - 1)).
Proof.
  intros Hw. cbn [RateLimiter.canMakeCall RateLimiter.getRemainingCalls].
  set (kept := filter (RateLimiter.inWindow c now) calls).
  split; [reflexivity|]. split.
  - destruct (Z.of_nat (List.length kept) <? RateLimiter.maxCalls c) eqn:E;
      symmetry; [apply Z.ltb_lt in E; apply Z.ltb_lt
                |apply Z.ltb_ge in E; apply Z.ltb_ge]; lia.
  - intros Hyes. apply Z.ltb_lt in Hyes.
    unfold RateLimiter.recordCall, RateLimiter.getRemainingCalls.
    assert (filter (RateLimiter.inWindow c now) (kept ++ [now])
            = kept ++ [now]) as ->.
    { rewrite filter_app. cbn [filter]. unfold kept.
      rewrite (RateLimiterFacts.filter_window_twice c now now calls
                 (Z.le_refl now)).
      unfold RateLimiter.inWindow at 2.
      replace (now - now <? RateLimiter.timeWindow c) with true
        by (symmetry; apply Z.ltb_lt; lia).
      reflexivity. }
    rewrite length_app. cbn [List.length]. f_equal. lia.
Qed.

Lemma remaining_counts_down_witness :
  RateLimiter.getRemainingCalls RateLimiter.anonymousRateLimiter 86400000
    (RateLimiter.recordCall 86400000 [1; 2])
  = ([1; 2; 86400000], 2).
Proof.
  pose proof (remaining_counts_down RateLimiter.anonymousRateLimiter 86400000
                [0; 1; 2] ltac:(reflexivity)) as H.
  cbn [RateLimiter.canMakeCall RateLimiter.getRemainingCalls] in H.
  destruct H as (_ & _ & H). exact (H eq_refl).
Defined.
